(** * gh-space-shooter: the game state of [game/game_state.py]

    A shallow embedding of the entity model (star field, explosions,
    enemies, bullets, ship) and of the orchestrating [GameState], followed
    by the properties of the simulation core.

    Conventions of the embedding:
    - Python [int] is [Z]; Python [float] positions are exact rationals [Q]
      (the clamping [min]/[max] of the ship and the truncation [int()] are
      exact operations, so the statements below do not depend on rounding);
    - objects that live in a shared list carry an identity ([*_id]); calling
      [list.remove(self)] removes the first element with that identity and
      raises [ValueError] when there is none;
    - every method that reads or mutates the game state runs in the monad
      [M], which threads the one [GameState] all entities point back to and
      keeps the mutated state when an exception is raised;
    - a [for x in self.xs] loop is an index walk over the live list, as in
      CPython, so a body that removes from the list shifts what the loop
      sees next;
    - the constants imported from [constants.py] are the fields of the class
      [Constants]. *)

From Stdlib Require Import String ZArith QArith Qround Qabs Lqa Lia Bool Arith List.
Import ListNotations.

Local Open Scope Z_scope.

(** ** Numbers *)

(** [a < b] on floats. *)
Definition Qltb (a b : Q) : bool := negb (Qle_bool b a).

(** Python [int(x)] on a float: truncation toward zero. *)
Definition py_int (x : Q) : Z := Z.quot (Qnum x) (Zpos (Qden x)).

(** Python [min(a, b)] and [max(a, b)]: the first argument wins ties. *)
Definition py_min (a b : Q) : Q := if Qltb b a then b else a.
Definition py_max (a b : Q) : Q := if Qltb a b then b else a.

(** ** Input data ([ContributionData], read through ["weeks"], ["days"], ["level"]) *)

Record ContributionDay := { level : Z }.
Record ContributionWeek := { days : list ContributionDay }.
Record ContributionData := { weeks : list ContributionWeek }.

(** ** Entities *)

(** A star is the list [[x, y, brightness, size, speed]]. *)
Record Star := {
  star_x : Q;
  star_y : Q;
  star_brightness : Q;
  star_size : Z;
  star_speed : Q
}.

Record Explosion := {
  explosion_id : nat;
  explosion_x : Q;
  explosion_y : Q;
  explosion_size : string;
  explosion_color : Z * Z * Z;
  explosion_frame : Z;
  explosion_max_frames : Z
}.

Record Enemy := {
  enemy_id : nat;
  enemy_x : Z;
  enemy_y : Z;
  enemy_health : Z
}.

Record Bullet := {
  bullet_id : nat;
  bullet_x : Z;
  bullet_y : Q
}.

Record Ship := {
  ship_x : Q;
  ship_target_x : Q;
  ship_shoot_cooldown : Z
}.

(** The state of Python's [random] module: a stream of draws of
    [random.random()] and the number of draws consumed. *)
Record Random := {
  random_draws : nat -> Q;
  random_cursor : nat
}.

(** One [animate()] invocation on an element of a collection. *)
Inductive Call :=
| EnemyAnimate (id : nat)
| BulletAnimate (id : nat)
| ExplosionAnimate (id : nat).

Definition Call_eqb (c d : Call) : bool :=
  match c, d with
  | EnemyAnimate i, EnemyAnimate j => Nat.eqb i j
  | BulletAnimate i, BulletAnimate j => Nat.eqb i j
  | ExplosionAnimate i, ExplosionAnimate j => Nat.eqb i j
  | _, _ => false
  end.

(** [GameState]: the five attributes of the class, the interpreter state the
    code relies on ([rand], [next_id]) and a ghost record of the [animate()]
    calls made on collection members ([calls]), which no method reads. *)
Record GameState := {
  starfield : list Star;
  ship : Ship;
  enemies : list Enemy;
  bullets : list Bullet;
  explosions : list Explosion;
  rand : Random;
  next_id : nat;
  calls : list Call
}.

Definition set_starfield (v : list Star) (st : GameState) : GameState :=
  {| starfield := v; ship := ship st; enemies := enemies st;
     bullets := bullets st; explosions := explosions st; rand := rand st;
     next_id := next_id st; calls := calls st |}.

Definition set_ship (v : Ship) (st : GameState) : GameState :=
  {| starfield := starfield st; ship := v; enemies := enemies st;
     bullets := bullets st; explosions := explosions st; rand := rand st;
     next_id := next_id st; calls := calls st |}.

Definition set_enemies (v : list Enemy) (st : GameState) : GameState :=
  {| starfield := starfield st; ship := ship st; enemies := v;
     bullets := bullets st; explosions := explosions st; rand := rand st;
     next_id := next_id st; calls := calls st |}.

Definition set_bullets (v : list Bullet) (st : GameState) : GameState :=
  {| starfield := starfield st; ship := ship st; enemies := enemies st;
     bullets := v; explosions := explosions st; rand := rand st;
     next_id := next_id st; calls := calls st |}.

Definition set_explosions (v : list Explosion) (st : GameState) : GameState :=
  {| starfield := starfield st; ship := ship st; enemies := enemies st;
     bullets := bullets st; explosions := v; rand := rand st;
     next_id := next_id st; calls := calls st |}.

Definition set_rand (v : Random) (st : GameState) : GameState :=
  {| starfield := starfield st; ship := ship st; enemies := enemies st;
     bullets := bullets st; explosions := explosions st; rand := v;
     next_id := next_id st; calls := calls st |}.

Definition set_next_id (v : nat) (st : GameState) : GameState :=
  {| starfield := starfield st; ship := ship st; enemies := enemies st;
     bullets := bullets st; explosions := explosions st; rand := rand st;
     next_id := v; calls := calls st |}.

Definition set_calls (v : list Call) (st : GameState) : GameState :=
  {| starfield := starfield st; ship := ship st; enemies := enemies st;
     bullets := bullets st; explosions := explosions st; rand := rand st;
     next_id := next_id st; calls := v |}.

(** A [GameState] object while [__init__] runs: an attribute is [None]
    until an assignment creates it. The record also holds the interpreter
    state the constructor relies on. *)
Record Object := {
  attr_starfield : option (list Star);
  attr_ship : option Ship;
  attr_enemies : option (list Enemy);
  attr_bullets : option (list Bullet);
  attr_explosions : option (list Explosion);
  object_rand : Random;
  object_next_id : nat
}.

(** [self.<attribute> = v]. *)
Definition set_attr_starfield (v : list Star) (self : Object) : Object :=
  {| attr_starfield := Some v; attr_ship := attr_ship self;
     attr_enemies := attr_enemies self; attr_bullets := attr_bullets self;
     attr_explosions := attr_explosions self; object_rand := object_rand self;
     object_next_id := object_next_id self |}.

Definition set_attr_ship (v : Ship) (self : Object) : Object :=
  {| attr_starfield := attr_starfield self; attr_ship := Some v;
     attr_enemies := attr_enemies self; attr_bullets := attr_bullets self;
     attr_explosions := attr_explosions self; object_rand := object_rand self;
     object_next_id := object_next_id self |}.

Definition set_attr_enemies (v : list Enemy) (self : Object) : Object :=
  {| attr_starfield := attr_starfield self; attr_ship := attr_ship self;
     attr_enemies := Some v; attr_bullets := attr_bullets self;
     attr_explosions := attr_explosions self; object_rand := object_rand self;
     object_next_id := object_next_id self |}.

Definition set_attr_bullets (v : list Bullet) (self : Object) : Object :=
  {| attr_starfield := attr_starfield self; attr_ship := attr_ship self;
     attr_enemies := attr_enemies self; attr_bullets := Some v;
     attr_explosions := attr_explosions self; object_rand := object_rand self;
     object_next_id := object_next_id self |}.

Definition set_attr_explosions (v : list Explosion) (self : Object) : Object :=
  {| attr_starfield := attr_starfield self; attr_ship := attr_ship self;
     attr_enemies := attr_enemies self; attr_bullets := attr_bullets self;
     attr_explosions := Some v; object_rand := object_rand self;
     object_next_id := object_next_id self |}.

Definition set_object_rand (v : Random) (self : Object) : Object :=
  {| attr_starfield := attr_starfield self; attr_ship := attr_ship self;
     attr_enemies := attr_enemies self; attr_bullets := attr_bullets self;
     attr_explosions := attr_explosions self; object_rand := v;
     object_next_id := object_next_id self |}.

Definition set_object_next_id (v : nat) (self : Object) : Object :=
  {| attr_starfield := attr_starfield self; attr_ship := attr_ship self;
     attr_enemies := attr_enemies self; attr_bullets := attr_bullets self;
     attr_explosions := attr_explosions self; object_rand := object_rand self;
     object_next_id := v |}.

(** The interpreter state a call reaches whatever object it runs on: the
    [random] module and the allocation of object identities. *)
Class Interpreter (St : Type) := {
  get_rand : St -> Random;
  put_rand : Random -> St -> St;
  get_next_id : St -> nat;
  put_next_id : nat -> St -> St
}.

#[export] Instance GameState_Interpreter : Interpreter GameState :=
  {| get_rand := rand; put_rand := set_rand;
     get_next_id := next_id; put_next_id := set_next_id |}.

#[export] Instance Object_Interpreter : Interpreter Object :=
  {| get_rand := object_rand; put_rand := set_object_rand;
     get_next_id := object_next_id; put_next_id := set_object_next_id |}.

(** ** The monad of methods *)

Inductive Exn := ValueError | AttributeError.

(** Outcome of a call on a state of type [St]: normal return, an exception
    (with the state as mutated up to the [raise]), or a loop that used up
    its fuel. *)
Inductive Outcome (St A : Type) :=
| Ok (a : A) (st : St)
| Raise (e : Exn) (st : St)
| OutOfFuel (st : St).

Arguments Ok {St A} a st.
Arguments Raise {St A} e st.
Arguments OutOfFuel {St A} st.

Definition Method (St A : Type) := St -> Outcome St A.

(** The methods of the classes run on the [GameState]. *)
Definition Result := Outcome GameState.
Definition M := Method GameState.

Definition ret {St A} (a : A) : Method St A := fun st => Ok a st.

Definition bind {St A B} (m : Method St A) (k : A -> Method St B) : Method St B :=
  fun st =>
    match m st with
    | Ok a st' => k a st'
    | Raise e st' => Raise e st'
    | OutOfFuel st' => OutOfFuel st'
    end.

Definition raise {St A} (e : Exn) : Method St A := fun st => Raise e st.
Definition gets {St A} (f : St -> A) : Method St A := fun st => Ok (f st) st.
Definition modify {St} (f : St -> St) : Method St unit := fun st => Ok tt (f st).

Declare Scope py_scope.
Delimit Scope py_scope with py.
Notation "x <- m ;; k" := (bind m (fun x => k))
  (at level 61, m at next level, right associativity) : py_scope.
Notation "m ;; k" := (bind m (fun _ => k))
  (at level 61, right associativity) : py_scope.
Local Open Scope py_scope.

(** The state a call leaves behind, whatever its outcome. *)
Definition final_state {St A} (r : Outcome St A) : St :=
  match r with
  | Ok _ st => st
  | Raise _ st => st
  | OutOfFuel st => st
  end.


Definition raises {St A} (r : Outcome St A) : bool :=
  match r with Raise _ _ => true | _ => false end.

(** ** Python lists *)

(** [l.remove(x)]: drop the first element that is [x]; [None] stands for
    [ValueError]. *)
Fixpoint list_remove {A} (is_x : A -> bool) (l : list A) : option (list A) :=
  match l with
  | [] => None
  | a :: l' =>
      if is_x a then Some l'
      else match list_remove is_x l' with
           | Some r => Some (a :: r)
           | None => None
           end
  end.

(** An attribute write on an object held in a list: the element with the
    object's identity is the object itself, so the list shows the write. *)
Definition list_store {A} (is_x : A -> bool) (x : A) (l : list A) : list A :=
  map (fun a => if is_x a then x else a) l.

(** The list after [l.remove(x)] when [x] is in it. *)
Definition list_without {A} (is_x : A -> bool) (l : list A) : list A :=
  match list_remove is_x l with
  | Some r => r
  | None => l
  end.

(** [for x in <attribute>: body(x)] over the live list: the iterator holds
    an index, reads the list afresh at every turn and stops when the index
    is past the end. *)
Fixpoint for_in_from {A} (attr : GameState -> list A) (body : A -> M unit)
    (fuel : nat) (i : nat) : M unit :=
  fun st =>
    match nth_error (attr st) i with
    | None => Ok tt st
    | Some x =>
        match fuel with
        | O => OutOfFuel st
        | S fuel' =>
            (body x ;; for_in_from attr body fuel' (S i)) st
        end
    end.

(** No loop of this file grows the list it walks, so the length of the list
    on entry bounds the number of turns. *)
Definition for_in {A} (attr : GameState -> list A) (body : A -> M unit) : M unit :=
  fun st => for_in_from attr body (length (attr st)) 0 st.

(** [for i, x in enumerate(l): body(i, x)] over input data that the body
    does not touch. *)
Fixpoint for_enumerate_from {St A} (body : Z -> A -> Method St unit) (i : Z) (l : list A)
  : Method St unit :=
  match l with
  | [] => ret tt
  | x :: l' => body i x ;; for_enumerate_from body (i + 1) l'
  end.

Definition for_enumerate {St A} (l : list A) (body : Z -> A -> Method St unit)
  : Method St unit :=
  for_enumerate_from body 0 l.

(** [obj.<attribute>] on an object under construction: [AttributeError]
    when no assignment has created the attribute. *)
Definition getattr {A} (attr : Object -> option A) : Method Object A :=
  fun self =>
    match attr self with
    | Some v => Ok v self
    | None => Raise AttributeError self
    end.

(** A fresh object identity. *)
Definition new_id {St} `{Interpreter St} : Method St nat :=
  fun st => Ok (get_next_id st) (put_next_id (S (get_next_id st)) st).

Definition log (c : Call) : M unit :=
  modify (fun st => set_calls (calls st ++ [c]) st).

(** ** [random] *)

Definition random_random {St} `{Interpreter St} : Method St Q :=
  fun st =>
    let r := get_rand st in
    Ok (random_draws r (random_cursor r))
       (put_rand {| random_draws := random_draws r;
                    random_cursor := S (random_cursor r) |} st).

(** [random.uniform(a, b)] is [a + (b - a) * random()]. *)
Definition random_uniform {St} `{Interpreter St} (a b : Q) : Method St Q :=
  u <- random_random ;; ret (a + (b - a) * u)%Q.

(** [random.choice(seq)]: an index drawn below [len(seq)]. *)
Definition random_choice {St} `{Interpreter St} {A} (default : A) (seq : list A)
  : Method St A :=
  u <- random_random ;;
  ret (nth (Z.to_nat (Qfloor (u * inject_Z (Z.of_nat (length seq))))) seq default).

(** [for _ in range(n): body], the body working on a value it carries
    from turn to turn. *)
Fixpoint for_range {St A} (n : nat) (body : A -> Method St A) (a : A) : Method St A :=
  match n with
  | O => ret a
  | S n' => a' <- body a ;; for_range n' body a'
  end.

(** A loop that rewrites each element of a list in place and leaves the
    list itself alone. *)
Fixpoint for_each_update {A} (body : A -> M A) (l : list A) : M (list A) :=
  match l with
  | [] => ret []
  | x :: l' =>
      x' <- body x ;;
      r <- for_each_update body l' ;;
      ret (x' :: r)
  end.

(** ** The classes *)

(** [from ..constants import ...]: the values the module [constants.py]
    binds these names to; the classes are read for any such values. *)
Class Constants := {
  NUM_WEEKS : Z;
  SHIP_POSITION_Y : Q;
  BULLET_SPEED : Q;
  SHIP_SPEED : Q;
  SHIP_SHOOT_COOLDOWN_FRAMES : Z
}.

Section Game.

Context {constants : Constants}.

(** *** Starfield *)

(** [Starfield()]: the new object's [stars], which the loop appends to. *)
Definition Starfield_init {St} `{Interpreter St} : Method St (list Star) :=
  for_range 100
    (fun stars =>
       x <- random_uniform (-2) (inject_Z NUM_WEEKS + 2) ;;
       y <- random_uniform (-2) (SHIP_POSITION_Y + 4) ;;
       brightness <- random_uniform (2 # 10) 1 ;;
       size <- random_choice 1 [1; 1; 1; 2] ;;
       let speed := ((2 # 100) + brightness * (3 # 100))%Q in
       ret (stars ++
            [{| star_x := x; star_y := y; star_brightness := brightness;
                star_size := size; star_speed := speed |}]))
    [].

Definition Star_animate (star : Star) : M Star :=
  let y := (star_y star + star_speed star)%Q in
  if Qltb (SHIP_POSITION_Y + 4) y then
    x <- random_uniform (-2) (inject_Z NUM_WEEKS + 2) ;;
    ret {| star_x := x; star_y := -2; star_brightness := star_brightness star;
           star_size := star_size star; star_speed := star_speed star |}
  else
    ret {| star_x := star_x star; star_y := y;
           star_brightness := star_brightness star;
           star_size := star_size star; star_speed := star_speed star |}.

Definition Starfield_animate : M unit :=
  stars <- gets starfield ;;
  stars' <- for_each_update Star_animate stars ;;
  modify (set_starfield stars').

(** *** Explosion *)

Definition Explosion_init (x y : Q) (size : string) (color : Z * Z * Z) : M Explosion :=
  id <- new_id ;;
  ret {| explosion_id := id; explosion_x := x; explosion_y := y;
         explosion_size := size; explosion_color := color;
         explosion_frame := 0;
         explosion_max_frames := if String.eqb size "small" then 6 else 10 |}.

Definition is_explosion (self x : Explosion) : bool :=
  Nat.eqb (explosion_id x) (explosion_id self).

Definition explosions_append (x : Explosion) : M unit :=
  modify (fun st => set_explosions (explosions st ++ [x]) st).

Definition explosions_remove (self : Explosion) : M unit :=
  fun st =>
    match list_remove (is_explosion self) (explosions st) with
    | Some l => Ok tt (set_explosions l st)
    | None => Raise ValueError st
    end.

Definition Explosion_set_frame (self : Explosion) (v : Z) : Explosion :=
  {| explosion_id := explosion_id self; explosion_x := explosion_x self;
     explosion_y := explosion_y self; explosion_size := explosion_size self;
     explosion_color := explosion_color self; explosion_frame := v;
     explosion_max_frames := explosion_max_frames self |}.

Definition Explosion_animate (self : Explosion) : M unit :=
  log (ExplosionAnimate (explosion_id self)) ;;
  let self := Explosion_set_frame self (explosion_frame self + 1) in
  modify (fun st => set_explosions (list_store (is_explosion self) self (explosions st)) st) ;;
  if explosion_max_frames self <=? explosion_frame self then
    explosions_remove self
  else ret tt.

(** *** Enemy *)

Definition Enemy_init {St} `{Interpreter St} (x y health : Z) : Method St Enemy :=
  id <- new_id ;;
  ret {| enemy_id := id; enemy_x := x; enemy_y := y; enemy_health := health |}.

Definition is_enemy (self x : Enemy) : bool :=
  Nat.eqb (enemy_id x) (enemy_id self).

Definition enemies_remove (self : Enemy) : M unit :=
  fun st =>
    match list_remove (is_enemy self) (enemies st) with
    | Some l => Ok tt (set_enemies l st)
    | None => Raise ValueError st
    end.

Definition Enemy_set_health (self : Enemy) (v : Z) : Enemy :=
  {| enemy_id := enemy_id self; enemy_x := enemy_x self;
     enemy_y := enemy_y self; enemy_health := v |}.

Definition Enemy_take_damage (self : Enemy) : M unit :=
  let self := Enemy_set_health self (enemy_health self - 1) in
  modify (fun st => set_enemies (list_store (is_enemy self) self (enemies st)) st) ;;
  if enemy_health self <=? 0 then
    explosion <- Explosion_init (inject_Z (enemy_x self)) (inject_Z (enemy_y self))
                   "large" (57, 211, 83) ;;
    explosions_append explosion ;;
    enemies_remove self
  else ret tt.

Definition Enemy_animate (self : Enemy) : M unit :=
  log (EnemyAnimate (enemy_id self)).

(** *** Bullet *)

Definition Bullet_init (x : Z) : M Bullet :=
  id <- new_id ;;
  ret {| bullet_id := id; bullet_x := x; bullet_y := SHIP_POSITION_Y - 1 |}.

Definition is_bullet (self x : Bullet) : bool :=
  Nat.eqb (bullet_id x) (bullet_id self).

Definition bullets_remove (self : Bullet) : M unit :=
  fun st =>
    match list_remove (is_bullet self) (bullets st) with
    | Some l => Ok tt (set_bullets l st)
    | None => Raise ValueError st
    end.

Definition collides (self : Bullet) (enemy : Enemy) : bool :=
  (enemy_x enemy =? bullet_x self) && Qle_bool (bullet_y self) (inject_Z (enemy_y enemy)).

Definition Bullet__check_collision (self : Bullet) : M (option Enemy) :=
  gets (fun st => find (collides self) (enemies st)).

Definition Bullet_set_y (self : Bullet) (v : Q) : Bullet :=
  {| bullet_id := bullet_id self; bullet_x := bullet_x self; bullet_y := v |}.

Definition Bullet_animate (self : Bullet) : M unit :=
  log (BulletAnimate (bullet_id self)) ;;
  let self := Bullet_set_y self (bullet_y self - BULLET_SPEED) in
  modify (fun st => set_bullets (list_store (is_bullet self) self (bullets st)) st) ;;
  hit_enemy <- Bullet__check_collision self ;;
  match hit_enemy with
  | Some enemy =>
      explosion <- Explosion_init (inject_Z (bullet_x self)) (bullet_y self)
                     "small" (255, 223, 0) ;;
      explosions_append explosion ;;
      Enemy_take_damage enemy ;;
      bullets_remove self
  | None => ret tt
  end ;;
  if Qltb (bullet_y self) (-10) then bullets_remove self else ret tt.

(** *** Ship *)

Definition Ship_init : Ship :=
  {| ship_x := 25; ship_target_x := 25; ship_shoot_cooldown := 0 |}.

Definition Ship_move_to (self : Ship) (x : Z) : Ship :=
  {| ship_x := ship_x self; ship_target_x := inject_Z x;
     ship_shoot_cooldown := ship_shoot_cooldown self |}.

Definition Ship_is_moving (self : Ship) : bool :=
  negb (Qeq_bool (ship_x self) (ship_target_x self)).

Definition Ship_can_shoot (self : Ship) : bool :=
  ship_shoot_cooldown self =? 0.

Definition Ship_animate (self : Ship) : Ship :=
  let x :=
    if Qltb (ship_x self) (ship_target_x self) then
      py_min (ship_x self + SHIP_SPEED) (ship_target_x self)
    else if Qltb (ship_target_x self) (ship_x self) then
      py_max (ship_x self - SHIP_SPEED) (ship_target_x self)
    else ship_x self in
  let cooldown :=
    if 0 <? ship_shoot_cooldown self then ship_shoot_cooldown self - 1
    else ship_shoot_cooldown self in
  {| ship_x := x; ship_target_x := ship_target_x self;
     ship_shoot_cooldown := cooldown |}.

(** A method call on [self.ship]. *)
Definition on_ship (method : Ship -> Ship) : M unit :=
  modify (fun st => set_ship (method (ship st)) st).

(** *** GameState *)

Definition GameState__initialize_enemies (contribution_data : ContributionData)
  : Method Object unit :=
  for_enumerate (weeks contribution_data) (fun week_idx week =>
    for_enumerate (days week) (fun day_idx day =>
      let level := level day in
      if level <=? 0 then ret tt
      else
        enemy <- Enemy_init week_idx day_idx level ;;
        enemies <- getattr attr_enemies ;;
        modify (set_attr_enemies (enemies ++ [enemy])))).

(** [GameState.__init__], on the object that [GameState(...)] has just
    allocated. *)
Definition GameState_init (contribution_data : ContributionData) : Method Object unit :=
  starfield <- Starfield_init ;;
  modify (set_attr_starfield starfield) ;;
  modify (set_attr_ship Ship_init) ;;
  modify (set_attr_enemies []) ;;
  modify (set_attr_bullets []) ;;
  modify (set_attr_explosions []) ;;
  GameState__initialize_enemies contribution_data.

(** The object before the constructor runs: no attribute yet; the random
    module seeded with the given stream. *)
Definition Object_new (seed : nat -> Q) : Object :=
  {| attr_starfield := None; attr_ship := None; attr_enemies := None;
     attr_bullets := None; attr_explosions := None;
     object_rand := {| random_draws := seed; random_cursor := 0 |};
     object_next_id := 0 |}.

(** The object as the methods of the class read it: it is a [GameState]
    when it has the five attributes. *)
Definition Object_GameState (self : Object) : option GameState :=
  match attr_starfield self, attr_ship self, attr_enemies self,
        attr_bullets self, attr_explosions self with
  | Some starfield, Some ship, Some enemies, Some bullets, Some explosions =>
      Some {| starfield := starfield; ship := ship; enemies := enemies;
              bullets := bullets; explosions := explosions;
              rand := object_rand self; next_id := object_next_id self;
              calls := [] |}
  | _, _, _, _, _ => None
  end.

(** What is left of an object that is no [GameState]: the attributes it
    has, shown for the state of a construction that failed. *)
Definition Object_remains (self : Object) : GameState :=
  {| starfield := match attr_starfield self with Some v => v | None => [] end;
     ship := match attr_ship self with
             | Some v => v
             | None => {| ship_x := 0; ship_target_x := 0; ship_shoot_cooldown := 0 |}
             end;
     enemies := match attr_enemies self with Some v => v | None => [] end;
     bullets := match attr_bullets self with Some v => v | None => [] end;
     explosions := match attr_explosions self with Some v => v | None => [] end;
     rand := object_rand self; next_id := object_next_id self; calls := [] |}.

(** [GameState(contribution_data)]: allocation, then [__init__]. An
    object that comes out of [__init__] without one of the attributes
    raises [AttributeError] at the first method that reads it; the
    model raises it at once. *)
Definition GameState_new (seed : nat -> Q) (contribution_data : ContributionData)
  : Result unit :=
  match GameState_init contribution_data (Object_new seed) with
  | Ok _ self =>
      match Object_GameState self with
      | Some st => Ok tt st
      | None => Raise AttributeError (Object_remains self)
      end
  | Raise e self => Raise e (Object_remains self)
  | OutOfFuel self => OutOfFuel (Object_remains self)
  end.

Definition GameState_shoot : M unit :=
  x <- gets (fun st => ship_x (ship st)) ;;
  bullet <- Bullet_init (py_int x) ;;
  modify (fun st => set_bullets (bullets st ++ [bullet]) st) ;;
  on_ship (fun s =>
    {| ship_x := ship_x s; ship_target_x := ship_target_x s;
       ship_shoot_cooldown := SHIP_SHOOT_COOLDOWN_FRAMES |}).

Definition GameState_is_complete (st : GameState) : bool :=
  Nat.eqb (List.length (enemies st)) 0.

Definition GameState_can_take_action (st : GameState) : bool :=
  negb (Ship_is_moving (ship st)) && Ship_can_shoot (ship st).

Definition GameState_animate : M unit :=
  Starfield_animate ;;
  on_ship Ship_animate ;;
  for_in enemies Enemy_animate ;;
  for_in bullets Bullet_animate ;;
  for_in explosions Explosion_animate.

End Game.

(** ** Vocabulary of the properties *)

(** The intensity of the cell in column [w], row [d] of the input grid. *)
Definition cell_level (data : ContributionData) (w d : Z) : option Z :=
  if (w <? 0) || (d <? 0) then None
  else match nth_error (weeks data) (Z.to_nat w) with
       | Some week => option_map level (nth_error (days week) (Z.to_nat d))
       | None => None
       end.

(** Number of cells of the grid whose intensity is positive. *)
Definition positive_cells (data : ContributionData) : nat :=
  list_sum
    (map (fun week => List.length (filter (fun day => 0 <? level day) (days week)))
         (weeks data)).

(** [n] is a nearest integer of [x]. *)
Definition nearest_integer (x : Q) (n : Z) : Prop :=
  (Qabs (x - inject_Z n) <= 1 # 2)%Q.

(** The enemies one week contributes, rows counted from [y], identities
    from [id]; and those of a run of weeks, columns counted from [x]. *)
Fixpoint week_enemies (x y : Z) (id : nat) (ds : list ContributionDay) : list Enemy :=
  match ds with
  | [] => []
  | d :: ds' =>
      if level d <=? 0 then week_enemies x (y + 1) id ds'
      else {| enemy_id := id; enemy_x := x; enemy_y := y; enemy_health := level d |}
           :: week_enemies x (y + 1) (S id) ds'
  end.

Fixpoint grid_enemies (x : Z) (id : nat) (ws : list ContributionWeek) : list Enemy :=
  match ws with
  | [] => []
  | w :: ws' =>
      let l := week_enemies x 0 id (days w) in
      l ++ grid_enemies (x + 1) (id + List.length l) ws'
  end.

(** Number of occurrences of a call in the record of calls. *)
Definition count_calls (c : Call) (l : list Call) : nat :=
  List.length (filter (Call_eqb c) l).

(** The calls a method made: what it appended to the record. *)
Definition calls_since (st st' : GameState) : list Call :=
  skipn (List.length (calls st)) (calls st').


Section Runs.

Context {constants : Constants}.

(** The explosion [take_damage] creates when the enemy is destroyed. *)
Definition destruction_explosion (e : Enemy) (id : nat) : Explosion :=
  {| explosion_id := id; explosion_x := inject_Z (enemy_x e);
     explosion_y := inject_Z (enemy_y e); explosion_size := "large";
     explosion_color := (57, 211, 83); explosion_frame := 0;
     explosion_max_frames := 10 |}.

(** The explosion [Bullet.animate] creates on a hit, at the moved bullet. *)
Definition impact_explosion (b : Bullet) (id : nat) : Explosion :=
  {| explosion_id := id; explosion_x := inject_Z (bullet_x b);
     explosion_y := bullet_y b - BULLET_SPEED; explosion_size := "small";
     explosion_color := (255, 223, 0); explosion_frame := 0;
     explosion_max_frames := 6 |}.

Definition Explosion_aged (x : Explosion) : Explosion :=
  Explosion_set_frame x (explosion_frame x + 1).

Definition Enemy_damaged (e : Enemy) : Enemy :=
  Enemy_set_health e (enemy_health e - 1).

(** The operations a frame driver performs on a game state. *)
Inductive Op :=
| MoveTo (x : Z)
| Shoot
| Animate.

Definition run (op : Op) : M unit :=
  match op with
  | MoveTo x => on_ship (fun s => Ship_move_to s x)
  | Shoot => GameState_shoot
  | Animate => GameState_animate
  end.

(** A sequence of operations, cut short by the first that does not return. *)
Fixpoint run_all (ops : list Op) : M unit :=
  match ops with
  | [] => ret tt
  | op :: ops' => run op ;; run_all ops'
  end.

(** One entity-level call of those [GameState.animate] makes, on a member
    of the collection it walks. *)
Inductive pass_call : M unit -> GameState -> Prop :=
| pass_starfield st : pass_call Starfield_animate st
| pass_ship st : pass_call (on_ship Ship_animate) st
| pass_enemy e st : In e (enemies st) -> pass_call (Enemy_animate e) st
| pass_bullet b st : In b (bullets st) -> pass_call (Bullet_animate b) st
| pass_explosion x st : In x (explosions st) -> pass_call (Explosion_animate x) st.

(** States of a run: the state a constructor returns, and every state a
    returning operation or a returning entity-level call of a pass leads to
    (so the states inside a pass are covered too). *)
Inductive reachable : GameState -> Prop :=
| reachable_new seed data st :
    GameState_new seed data = Ok tt st -> reachable st
| reachable_run op st st' :
    reachable st -> run op st = Ok tt st' -> reachable st'
| reachable_pass m st st' :
    reachable st -> pass_call m st -> m st = Ok tt st' -> reachable st'.

(** The identities of a collection are distinct and already allocated. *)
Definition ids_ok {A} (id_of : A -> nat) (l : list A) (n : nat) : Prop :=
  NoDup (map id_of l) /\ Forall (fun a => (id_of a < n)%nat) l.

(** An enemy of the collection is alive and sits on a row of the grid. *)
Definition alive (e : Enemy) : Prop := 1 <= enemy_health e /\ 0 <= enemy_y e.

Record wf (st : GameState) : Prop := {
  wf_enemies : ids_ok enemy_id (enemies st) (next_id st);
  wf_bullets : ids_ok bullet_id (bullets st) (next_id st);
  wf_explosions : ids_ok explosion_id (explosions st) (next_id st);
  wf_alive : Forall alive (enemies st)
}.

(** Every enemy of [st'] is an enemy of [st], where it stands, with no more
    health than it had. *)
Definition enemies_decay (st st' : GameState) : Prop :=
  forall e', In e' (enemies st') ->
    exists e, In e (enemies st) /\ enemy_id e' = enemy_id e /\
      enemy_x e' = enemy_x e /\ enemy_y e' = enemy_y e /\
      enemy_health e' <= enemy_health e.

(** A bullet with an enemy left in its column is still at least one move
    away from the exit threshold. *)
Definition bullets_safe (st : GameState) : Prop :=
  forall b e, In b (bullets st) -> In e (enemies st) ->
    enemy_x e = bullet_x b -> (-10 <= bullet_y b - BULLET_SPEED)%Q.

(** The bullet after the move of its [animate()]. *)
Definition Bullet_moved (b : Bullet) : Bullet :=
  Bullet_set_y b (bullet_y b - BULLET_SPEED).

(** The two removal conditions of [Bullet.animate], read in state [st]. *)
Definition Bullet_hits (b : Bullet) (st : GameState) : bool :=
  match find (collides (Bullet_moved b)) (enemies st) with
  | Some _ => true
  | None => false
  end.

Definition Bullet_exits (b : Bullet) : bool :=
  Qltb (bullet_y (Bullet_moved b)) (-10).

(** The second removal of [Bullet.animate], guarded by the exit test. *)
Definition Bullet_exit_check (b : Bullet) : M unit :=
  if Bullet_exits b then bullets_remove b else ret tt.

(** The state each method leaves when it returns (see
    [Enemy_take_damage_returns], [Bullet_animate_returns] and
    [Explosion_animate_returns]). *)
Definition Enemy_after_damage (e : Enemy) (st : GameState) : GameState :=
  if enemy_health e - 1 <=? 0 then
    set_enemies (list_without (is_enemy e) (enemies st))
      (set_explosions (explosions st ++ [destruction_explosion e (next_id st)])
         (set_next_id (S (next_id st)) st))
  else set_enemies (list_store (is_enemy e) (Enemy_damaged e) (enemies st)) st.

Definition Bullet_after_animate (b : Bullet) (st : GameState) : GameState :=
  let st1 :=
    set_bullets (list_store (is_bullet b) (Bullet_moved b) (bullets st))
      (set_calls (calls st ++ [BulletAnimate (bullet_id b)]) st) in
  match find (collides (Bullet_moved b)) (enemies st) with
  | Some e =>
      set_bullets (list_without (is_bullet b) (bullets st))
        (Enemy_after_damage e
           (set_explosions (explosions st ++ [impact_explosion b (next_id st)])
              (set_next_id (S (next_id st)) st1)))
  | None =>
      if Bullet_exits b then set_bullets (list_without (is_bullet b) (bullets st)) st1
      else st1
  end.

Definition Explosion_after_animate (x : Explosion) (st : GameState) : GameState :=
  let st1 := set_calls (calls st ++ [ExplosionAnimate (explosion_id x)]) st in
  if explosion_max_frames x <=? explosion_frame x + 1 then
    set_explosions (list_without (is_explosion x) (explosions st)) st1
  else
    set_explosions (list_store (is_explosion x) (Explosion_aged x) (explosions st)) st1.


(** [n] successive [Ship.animate()] calls. *)
Fixpoint Ship_animate_n (n : nat) (s : Ship) : Ship :=
  match n with
  | O => s
  | S n' => Ship_animate_n n' (Ship_animate s)
  end.

End Runs.

(** ** Sample data *)

Definition sample_constants : Constants :=
  {| NUM_WEEKS := 52; SHIP_POSITION_Y := 10; BULLET_SPEED := 3 # 20;
     SHIP_SPEED := 1 # 4; SHIP_SHOOT_COOLDOWN_FRAMES := 15 |}.

Definition sample_grid (levels : list (list Z)) : ContributionData :=
  {| weeks := map (fun w => {| days := map (fun l => {| level := l |}) w |}) levels |}.

Definition sample_seed : nat -> Q := fun _ => 1 # 2.

(** The state the constructor returns on a grid of intensities, and the
    state a sequence of operations leaves after it. *)
Definition sample_new (levels : list (list Z)) : GameState :=
  final_state (@GameState_new sample_constants sample_seed (sample_grid levels)).

Definition sample_after (levels : list (list Z)) (ops : list Op) : GameState :=
  final_state (@run_all sample_constants ops (sample_new levels)).


(** A grid with one cell of intensity 3 in column 0 and one of intensity 1
    in column 25, under the ship. *)
Definition sample_levels : list (list Z) :=
  [[3]] ++ repeat [] 24 ++ [[1]].

(** The game 64 passes after a shot from column 25: the bullet has
    destroyed the enemy above the ship in pass 60, which left an impact
    explosion and a destruction explosion, both now at frame 5. *)
Definition sample_explosions_state : GameState :=
  sample_after sample_levels (Shoot :: repeat Animate 64).


(** ** More vocabulary: explosions, stars *)

(** The test of [Explosion.animate]: the frame it reaches is the last. *)
Definition Explosion_ends (x : Explosion) : bool :=
  explosion_max_frames x <=? explosion_frame x + 1.

(** The explosions a walk over the collection calls [animate()] on: the
    first one, and then, after an explosion that stays, the next one; after
    an explosion that ends (and has removed itself from the list being
    walked), the one after the next. *)
Fixpoint explosions_visited (l : list Explosion) : list Explosion :=
  match l with
  | [] => []
  | x :: l' =>
      x :: (if Explosion_ends x then
              match l' with
              | [] => []
              | _ :: l'' => explosions_visited l''
              end
            else explosions_visited l')
  end.

(** The collection such a walk leaves: the explosions that end are gone,
    the others it called are one frame older, and the one that followed an
    ending explosion is as it was. *)
Fixpoint explosions_after (l : list Explosion) : list Explosion :=
  match l with
  | [] => []
  | x :: l' =>
      if Explosion_ends x then
        match l' with
        | [] => []
        | y :: l'' => y :: explosions_after l''
        end
      else Explosion_aged x :: explosions_after l'
  end.

(** An explosion as the code makes and keeps them: its frame is below its
    last frame, which is 6 for a ["small"] explosion and 10 otherwise. *)
Definition explosion_ok (x : Explosion) : Prop :=
  0 <= explosion_frame x < explosion_max_frames x /\
  explosion_max_frames x = (if String.eqb (explosion_size x) "small" then 6 else 10).

Definition explosions_ok (st : GameState) : Prop :=
  Forall explosion_ok (explosions st).

(** A star inside the band the star field keeps its stars in. *)
Definition star_ok {constants : Constants} (s : Star) : Prop :=
  (-2 <= star_x s /\ star_x s <= inject_Z NUM_WEEKS + 2 /\
   -2 <= star_y s /\ star_y s <= SHIP_POSITION_Y + 4 /\
   (2 # 10) <= star_brightness s /\ star_brightness s <= 1 /\
   star_speed s == (2 # 100) + star_brightness s * (3 # 100))%Q /\
  (star_size s = 1 \/ star_size s = 2).

(** One [Starfield.animate] step of a star: it falls by its speed, or, once
    that would take it below the bottom of the band, is put back at the
    top; nothing else of it changes, but its column when it is put back. *)
Definition Star_stepped {constants : Constants} (s s' : Star) : Prop :=
  star_brightness s' = star_brightness s /\
  star_size s' = star_size s /\
  star_speed s' = star_speed s /\
  ((star_y s + star_speed s <= SHIP_POSITION_Y + 4 /\
    star_y s' = star_y s + star_speed s /\ star_x s' = star_x s) \/
   (SHIP_POSITION_Y + 4 < star_y s + star_speed s /\ star_y s' = -2))%Q.

(** The draws of [random.random()] lie in [0, 1). *)
Definition unit_draws (seed : nat -> Q) : Prop :=
  forall n, (0 <= seed n /\ seed n < 1)%Q.

(** The stars of a state: 100 of them, inside the band when the draws of
    the state are in [0, 1) and the band is not empty. *)
Definition stars_kept {constants : Constants} (st : GameState) : Prop :=
  List.length (starfield st) = 100%nat /\
  (-4 <= NUM_WEEKS -> (-6 <= SHIP_POSITION_Y)%Q ->
   unit_draws (random_draws (rand st)) -> Forall star_ok (starfield st)).

(** Constants with a bullet that crosses the whole grid in one step. *)
Definition fast_constants : Constants :=
  {| NUM_WEEKS := 52; SHIP_POSITION_Y := 10; BULLET_SPEED := 30;
     SHIP_SPEED := 1 # 4; SHIP_SHOOT_COOLDOWN_FRAMES := 15 |}.

(** A column with an enemy on row 0 and one on row 2, under the ship. *)
Definition sample_column_levels : list (list Z) :=
  repeat [] 25 ++ [[1; 0; 2]].

(** ** The web app ([app/src/main.py]) *)

(** The strategy classes the app imports from [gh_space_shooter.game]. *)
Inductive StrategyClass := ColumnStrategy | RowStrategy | RandomStrategy.

(** A [dict] with string keys, in insertion order: [d.get(k)],
    [d.get(k, default)], [k in d] and [d.keys()]. *)
Fixpoint dict_lookup {V} (d : list (string * V)) (k : string) : option V :=
  match d with
  | [] => None
  | (k', v) :: d' => if String.eqb k k' then Some v else dict_lookup d' k
  end.

Definition dict_get {V} (d : list (string * V)) (k : string) (default : V) : V :=
  match dict_lookup d k with
  | Some v => v
  | None => default
  end.

Definition dict_contains {V} (d : list (string * V)) (k : string) : bool :=
  match dict_lookup d k with
  | Some _ => true
  | None => false
  end.

Definition dict_keys {V} (d : list (string * V)) : list string := map fst d.

Definition STRATEGY_MAP : list (string * StrategyClass) :=
  [("column", ColumnStrategy); ("row", RowStrategy); ("random", RandomStrategy)]%string.

(** What a call into the libraries can raise, as the [except] clauses of
    [generate] tell them apart; each carries its [str()]. *)
Inductive Raised :=
| RaisedValueError (message : string)
| RaisedGitHubAPIError (message : string)
| RaisedException (message : string).

Inductive Attempt (A : Type) :=
| Returned (a : A)
| Failed (e : Raised).

Arguments Returned {A} a.
Arguments Failed {A} e.

(** The code [main.py] calls and [src/] does not hold: the GitHub client
    (built from the token, asked for a user's graph), the animator, the
    choice of an output provider from a file name, the encoding of the
    animator's frames, and the [Response] class of the web framework,
    whose constructor is given the content, the media type and the headers
    and, like the other calls, returns or raises. *)
Class Collaborators := {
  Animator : Type;
  OutputProvider : Type;
  Encoded : Type;
  Response : Type;
  get_contribution_graph : string -> string -> Attempt ContributionData;
  Animator_init : ContributionData -> StrategyClass -> Z -> bool -> Attempt Animator;
  resolve_output_provider : string -> Z -> bool -> Attempt OutputProvider;
  OutputProvider_encode : OutputProvider -> Animator -> Attempt Encoded;
  Response_init : Encoded -> string -> list (string * string) -> Attempt Response
}.

Section WebApp.

Context {collaborators : Collaborators}.

Definition generate_animation (username strategy token output_format : string)
  : Attempt (Encoded * string) :=
  match get_contribution_graph token username with
  | Failed e => Failed e
  | Returned data =>
      let strategy_class := dict_get STRATEGY_MAP strategy RandomStrategy in
      match Animator_init data strategy_class 25 true with
      | Failed e => Failed e
      | Returned animator =>
          let fake_path := ("output." ++ output_format)%string in
          match resolve_output_provider fake_path 25 true with
          | Failed e => Failed e
          | Returned provider =>
              match OutputProvider_encode provider animator with
              | Failed e => Failed e
              | Returned encoded =>
                  let media_type := ("image/" ++ output_format)%string in
                  Returned (encoded, media_type)
              end
          end
      end
  end.

(** What the endpoint does: it returns a response or raises
    [HTTPException(status_code, detail)]. *)
Inductive Reply :=
| Replied (r : Response)
| HTTPException (status_code : Z) (detail : string).

(** The [except] clauses of [generate], tried in order on what the [try]
    block raised. *)
Definition generate_except (e : Raised) : Reply :=
  match e with
  | RaisedValueError e => HTTPException 400 e
  | RaisedGitHubAPIError e => HTTPException 400 e
  | RaisedException e =>
      HTTPException 500 ("Failed to generate animation: " ++ e)%string
  end.

(** The [headers] argument of the response. *)
Definition generate_headers (username format : string) : list (string * string) :=
  [("Response-Type", "blob");
   ("Content-Disposition",
    "inline; filename=" ++ username ++ "-space-shooter." ++ format)]%string.

(** [generate], given the value of [os.getenv("GH_TOKEN")] and the query
    parameters. The [try] block holds two calls, [generate_animation] and
    the construction of the response. *)
Definition generate (GH_TOKEN : option string) (username strategy format : string)
  : Reply :=
  match GH_TOKEN with
  | None => HTTPException 500 "GitHub token not configured"
  | Some token =>
      if String.eqb token "" then HTTPException 500 "GitHub token not configured"
      else if negb (dict_contains STRATEGY_MAP strategy) then
        HTTPException 400
          ("Invalid strategy. Choose from: "
           ++ String.concat ", " (dict_keys STRATEGY_MAP))%string
      else
        match generate_animation username strategy token format with
        | Returned (encoded, media_type) =>
            match Response_init encoded media_type
                    (generate_headers username format) with
            | Returned response => Replied response
            | Failed e => generate_except e
            end
        | Failed e => generate_except e
        end
  end.

End WebApp.

(** ** Drawing an enemy *)

(** What [Enemy.draw] reads of the rendering context
    ([render_context.py] is not among the sources): the cell-to-pixel
    map, the cell size and the colour table keyed by health. *)
Record RenderContext := {
  get_cell_position : Q -> Q -> Q * Q;
  cell_size : Z;
  enemy_colors : list (Z * (Z * Z * Z))
}.

(** [d[k]] on a [dict] with integer keys; [None] stands for [KeyError]. *)
Fixpoint colors_lookup (d : list (Z * (Z * Z * Z))) (k : Z) : option (Z * Z * Z) :=
  match d with
  | [] => None
  | (k', v) :: d' => if k =? k' then Some v else colors_lookup d' k
  end.

(** [draw.rectangle([x0, y0, x1, y1], fill=color)]. *)
Inductive Drawing :=
| Rectangle (x0 y0 x1 y1 : Q) (fill : Z * Z * Z).

Inductive Drawn :=
| Painted (shapes : list Drawing)
| RaisedKeyError (key : Z).

(** [Enemy.draw]: the default of [enemy_colors.get] is the expression
    [enemy_colors[1]], evaluated before [get] is called. *)
Definition Enemy_draw (self : Enemy) (context : RenderContext) : Drawn :=
  let (x, y) :=
    get_cell_position context (inject_Z (enemy_x self)) (inject_Z (enemy_y self)) in
  match colors_lookup (enemy_colors context) 1 with
  | None => RaisedKeyError 1
  | Some default =>
      let color :=
        match colors_lookup (enemy_colors context) (enemy_health self) with
        | Some c => c
        | None => default
        end in
      Painted
        [Rectangle x y (x + inject_Z (cell_size context))
           (y + inject_Z (cell_size context)) color]
  end.

(** ** More sample data *)

Definition sample_bullet : Bullet :=
  {| bullet_id := 0; bullet_x := 0; bullet_y := 0 |}.

(** 59 passes after a shot from column 25: the bullet is one step below
    the enemy of row 0. *)
Definition sample_hit_state : GameState :=
  sample_after sample_levels (Shoot :: repeat Animate 59).

Definition sample_hit_bullet : Bullet := hd sample_bullet (bullets sample_hit_state).

Definition sample_hit_enemy : Enemy :=
  {| enemy_id := 1; enemy_x := 25; enemy_y := 0; enemy_health := 1 |}.

(** The same game with the fast bullet, right after the shot. *)
Definition fast_shot_state : GameState :=
  final_state
    (@run_all fast_constants [Shoot]
       (final_state (@GameState_new fast_constants sample_seed (sample_grid sample_levels)))).

Definition fast_shot_bullet : Bullet := hd sample_bullet (bullets fast_shot_state).

(** 46 passes after a shot under the column with enemies on rows 0 and 2:
    the bullet is one step below row 2. *)
Definition sample_column_state : GameState :=
  sample_after sample_column_levels (Shoot :: repeat Animate 46).

Definition sample_column_bullet : Bullet :=
  hd sample_bullet (bullets sample_column_state).

(** [c in s] for a character of a string. *)
Fixpoint string_has (p : Ascii.ascii -> bool) (s : string) : bool :=
  match s with
  | EmptyString => false
  | String c s' => p c || string_has p s'
  end.

(** Libraries that know one user and two formats, and a [Response] that
    takes no header value with a character outside ASCII. *)
Definition sample_collaborators : Collaborators :=
  {| Animator := ContributionData * StrategyClass;
     OutputProvider := string;
     Encoded := string;
     Response := string * string * list (string * string);
     get_contribution_graph := fun token username =>
       if String.eqb username "nobody"
       then Failed (RaisedGitHubAPIError "User not found")
       else Returned (sample_grid [[1]]);
     Animator_init := fun data strategy fps watermark => Returned (data, strategy);
     resolve_output_provider := fun path fps watermark =>
       if String.eqb path "output.gif" || String.eqb path "output.webp"
       then Returned path
       else Failed (RaisedValueError "Unsupported output format");
     OutputProvider_encode := fun provider animator => Returned provider;
     Response_init := fun content media_type headers =>
       if existsb (fun h => string_has (fun c => (127 <? Ascii.nat_of_ascii c)%nat) (snd h))
            headers
       then Failed (RaisedValueError "codec can't encode characters")
       else Returned (content, media_type, headers) |}.


(** ** Basic facts *)

Lemma Qltb_true (a b : Q) : Qltb a b = true <-> (a < b)%Q.
Proof.
  unfold Qltb. rewrite negb_true_iff. split; intro H.
  - apply Qnot_le_lt. intro Hle. apply Qle_bool_iff in Hle. congruence.
  - destruct (Qle_bool b a) eqn:E; [|reflexivity].
    apply Qle_bool_iff in E. exfalso. apply (Qlt_not_le _ _ H E).
Qed.

Lemma Qltb_false (a b : Q) : Qltb a b = false <-> (b <= a)%Q.
Proof.
  unfold Qltb. rewrite negb_false_iff. apply Qle_bool_iff.
Qed.

Lemma for_range_rand {A} (body : A -> Method Object A) :
  (forall a self, exists a' r, body a self = Ok a' (set_object_rand r self)) ->
  forall n a self, exists a' r, for_range n body a self = Ok a' (set_object_rand r self).
Proof.
  intros Hbody n. induction n as [|n IH]; intros a self; simpl.
  - exists a, (object_rand self). destruct self; reflexivity.
  - unfold bind. destruct (Hbody a self) as (a1 & r1 & ->).
    destruct (IH a1 (set_object_rand r1 self)) as (a2 & r2 & ->).
    exists a2, r2. reflexivity.
Qed.

Section InitFacts.

Context {constants : Constants}.

Lemma Starfield_init_eq (self : Object) :
  exists sf r, Starfield_init self = Ok sf (set_object_rand r self).
Proof.
  unfold Starfield_init. apply for_range_rand.
  intros a s. eexists _, _. reflexivity.
Qed.

End InitFacts.

Section InitEnemies.

Context {constants : Constants}.

(** The body of the inner loop of [_initialize_enemies], on an object
    that has its [enemies]. *)
Lemma initialize_week (x : Z) (ds : list ContributionDay) :
  forall y self l0,
    attr_enemies self = Some l0 ->
    for_enumerate_from
      (fun day_idx day =>
         let level := level day in
         if level <=? 0 then ret tt
         else enemy <- Enemy_init x day_idx level ;;
              enemies <- getattr attr_enemies ;;
              modify (set_attr_enemies (enemies ++ [enemy])))
      y ds self
    = let l := week_enemies x y (object_next_id self) ds in
      Ok tt (set_object_next_id (object_next_id self + List.length l)
               (set_attr_enemies (l0 ++ l) self)).
Proof.
  induction ds as [|d ds IH]; intros y self l0 H0; simpl.
  - unfold ret. destruct self; unfold set_object_next_id, set_attr_enemies; simpl in *.
    rewrite app_nil_r, Nat.add_0_r, H0. reflexivity.
  - unfold bind at 1. destruct (level d <=? 0) eqn:E.
    + unfold ret. apply IH. exact H0.
    + unfold bind at 1. unfold Enemy_init, new_id, bind, ret, getattr, modify. simpl.
      rewrite H0.
      rewrite (IH _ _ (l0 ++ [{| enemy_id := object_next_id self; enemy_x := x;
                                 enemy_y := y; enemy_health := level d |}]))
        by reflexivity.
      simpl. unfold set_object_next_id, set_attr_enemies. simpl.
      rewrite <- app_assoc. simpl. rewrite Nat.add_succ_r. reflexivity.
Qed.

Lemma initialize_weeks (ws : list ContributionWeek) :
  forall x self l0,
    attr_enemies self = Some l0 ->
    for_enumerate_from
      (fun week_idx week =>
         for_enumerate (days week) (fun day_idx day =>
           let level := level day in
           if level <=? 0 then ret tt
           else enemy <- Enemy_init week_idx day_idx level ;;
                enemies <- getattr attr_enemies ;;
                modify (set_attr_enemies (enemies ++ [enemy]))))
      x ws self
    = let l := grid_enemies x (object_next_id self) ws in
      Ok tt (set_object_next_id (object_next_id self + List.length l)
               (set_attr_enemies (l0 ++ l) self)).
Proof.
  induction ws as [|w ws IH]; intros x self l0 H0; simpl.
  - unfold ret. destruct self; unfold set_object_next_id, set_attr_enemies; simpl in *.
    rewrite app_nil_r, Nat.add_0_r, H0. reflexivity.
  - unfold bind at 1. unfold for_enumerate. rewrite (initialize_week _ _ _ _ l0 H0). simpl.
    rewrite (IH _ _ (l0 ++ week_enemies x 0 (object_next_id self) (days w)))
      by reflexivity.
    simpl. unfold set_object_next_id, set_attr_enemies. simpl.
    rewrite length_app, app_assoc, Nat.add_assoc. reflexivity.
Qed.

Lemma GameState__initialize_enemies_eq (data : ContributionData) (self : Object)
    (l0 : list Enemy) :
  attr_enemies self = Some l0 ->
  GameState__initialize_enemies data self
  = let l := grid_enemies 0 (object_next_id self) (weeks data) in
    Ok tt (set_object_next_id (object_next_id self + List.length l)
             (set_attr_enemies (l0 ++ l) self)).
Proof.
  unfold GameState__initialize_enemies, for_enumerate at 1.
  apply initialize_weeks.
Qed.

(** Before [self.enemies = []] has run, [_initialize_enemies] raises
    [AttributeError] at its first enemy. *)
Lemma GameState__initialize_enemies_unset (seed : nat -> Q) :
  GameState__initialize_enemies
    {| weeks := [{| days := [{| level := 1 |}] |}] |} (Object_new seed)
  = Raise AttributeError (set_object_next_id 1 (Object_new seed)).
Proof. reflexivity. Qed.

(** The constructor returns, with the ship of [Ship.__init__], the enemies
    of the grid and nothing else in the collections. *)
Lemma GameState_new_eq (seed : nat -> Q) (data : ContributionData) :
  exists sf r,
    GameState_new seed data
    = Ok tt {| starfield := sf; ship := Ship_init;
               enemies := grid_enemies 0 0 (weeks data);
               bullets := []; explosions := []; rand := r;
               next_id := List.length (grid_enemies 0 0 (weeks data));
               calls := [] |}.
Proof.
  unfold GameState_new, GameState_init. unfold bind at 1.
  destruct (Starfield_init_eq (Object_new seed)) as (sf & r & ->).
  exists sf, r. unfold bind, modify.
  rewrite (GameState__initialize_enemies_eq data _ []) by reflexivity.
  reflexivity.
Qed.

End InitEnemies.

(** ** The enemies of a grid *)

Lemma week_enemies_length (x : Z) (ds : list ContributionDay) :
  forall y id,
    List.length (week_enemies x y id ds)
    = List.length (filter (fun day => 0 <? level day) ds).
Proof.
  induction ds as [|d ds IH]; intros y id; simpl; [reflexivity|].
  destruct (Z.leb_spec (level d) 0) as [Hle|Hgt];
    destruct (Z.ltb_spec 0 (level d)); try lia; simpl; rewrite IH; reflexivity.
Qed.

Lemma grid_enemies_length (ws : list ContributionWeek) :
  forall x id,
    List.length (grid_enemies x id ws)
    = list_sum (map (fun week =>
        List.length (filter (fun day => 0 <? level day) (days week))) ws).
Proof.
  induction ws as [|w ws IH]; intros x id; simpl; [reflexivity|].
  rewrite length_app, week_enemies_length, IH. reflexivity.
Qed.

Lemma week_enemies_ids (x : Z) (ds : list ContributionDay) :
  forall y id,
    map enemy_id (week_enemies x y id ds)
    = seq id (List.length (week_enemies x y id ds)).
Proof.
  induction ds as [|d ds IH]; intros y id; simpl; [reflexivity|].
  destruct (level d <=? 0); simpl; [apply IH | f_equal; apply IH].
Qed.

Lemma grid_enemies_ids (ws : list ContributionWeek) :
  forall x id,
    map enemy_id (grid_enemies x id ws)
    = seq id (List.length (grid_enemies x id ws)).
Proof.
  induction ws as [|w ws IH]; intros x id; simpl; [reflexivity|].
  rewrite map_app, length_app, seq_app, week_enemies_ids, IH. reflexivity.
Qed.

Lemma week_enemies_In (x : Z) (ds : list ContributionDay) :
  forall y id e,
    In e (week_enemies x y id ds) ->
    enemy_x e = x /\ y <= enemy_y e /\ 0 < enemy_health e /\
    nth_error ds (Z.to_nat (enemy_y e - y)) = Some {| level := enemy_health e |}.
Proof.
  induction ds as [|d ds IH]; intros y id e Hin; simpl in Hin; [contradiction|].
  assert (Htail : forall id', In e (week_enemies x (y + 1) id' ds) ->
            enemy_x e = x /\ y <= enemy_y e /\ 0 < enemy_health e /\
            nth_error (d :: ds) (Z.to_nat (enemy_y e - y))
            = Some {| level := enemy_health e |}).
  { intros id' H. destruct (IH _ _ _ H) as (Hx & Hy & Hh & Hn).
    repeat split; try lia; try assumption.
    replace (Z.to_nat (enemy_y e - y)) with (S (Z.to_nat (enemy_y e - (y + 1)))) by lia.
    exact Hn. }
  destruct (Z.leb_spec (level d) 0) as [Hle|Hgt].
  - eapply Htail; eassumption.
  - destruct Hin as [<-|Hin]; [|eapply Htail; eassumption].
    simpl. repeat split; try lia.
    rewrite Z.sub_diag. simpl. destruct d; reflexivity.
Qed.

Lemma week_enemies_cell (x : Z) (ds : list ContributionDay) :
  forall y id k d,
    nth_error ds k = Some d -> 0 < level d ->
    exists e, In e (week_enemies x y id ds) /\
      enemy_x e = x /\ enemy_y e = y + Z.of_nat k /\ enemy_health e = level d.
Proof.
  induction ds as [|d0 ds IH]; intros y id k d Hn Hpos.
  - destruct k; discriminate.
  - simpl. destruct k as [|k]; simpl in Hn.
    + injection Hn as ->. destruct (Z.leb_spec (level d) 0); [lia|].
      eexists. split; [left; reflexivity|]. simpl. repeat split; lia.
    + assert (Htail : forall id', exists e, In e (week_enemies x (y + 1) id' ds) /\
                enemy_x e = x /\ enemy_y e = y + Z.of_nat (S k) /\
                enemy_health e = level d).
      { intro id'. destruct (IH (y + 1) id' k d Hn Hpos) as (e & Hin & Hx & Hy & Hh).
        exists e. repeat split; try assumption; lia. }
      destruct (level d0 <=? 0).
      * apply Htail.
      * destruct (Htail (S id)) as (e & Hin & H). exists e. split; [right|]; assumption.
Qed.

Lemma week_enemies_rows_NoDup (x : Z) (ds : list ContributionDay) :
  forall y id, NoDup (map enemy_y (week_enemies x y id ds)).
Proof.
  induction ds as [|d ds IH]; intros y id; simpl; [constructor|].
  destruct (level d <=? 0); [apply IH|].
  simpl. constructor; [|apply IH].
  intro Hin. apply in_map_iff in Hin. destruct Hin as (e & Hy & Hin).
  apply week_enemies_In in Hin. lia.
Qed.

Lemma grid_enemies_In (ws : list ContributionWeek) :
  forall x id e,
    In e (grid_enemies x id ws) ->
    x <= enemy_x e /\ 0 <= enemy_y e /\ 0 < enemy_health e /\
    exists w, nth_error ws (Z.to_nat (enemy_x e - x)) = Some w /\
      nth_error (days w) (Z.to_nat (enemy_y e))
      = Some {| level := enemy_health e |}.
Proof.
  induction ws as [|w ws IH]; intros x id e Hin; simpl in Hin; [contradiction|].
  apply in_app_or in Hin. destruct Hin as [Hin|Hin].
  - apply week_enemies_In in Hin. destruct Hin as (Hx & Hy & Hh & Hn).
    repeat split; try lia. exists w. rewrite Hx, Z.sub_diag. simpl.
    rewrite Z.sub_0_r in Hn. split; [reflexivity|exact Hn].
  - apply IH in Hin. destruct Hin as (Hx & Hy & Hh & w' & Hw & Hn).
    repeat split; try lia. exists w'. split; [|exact Hn].
    replace (Z.to_nat (enemy_x e - x)) with (S (Z.to_nat (enemy_x e - (x + 1)))) by lia.
    exact Hw.
Qed.

Lemma grid_enemies_cell (ws : list ContributionWeek) :
  forall x id j w k d,
    nth_error ws j = Some w -> nth_error (days w) k = Some d -> 0 < level d ->
    exists e, In e (grid_enemies x id ws) /\
      enemy_x e = x + Z.of_nat j /\ enemy_y e = Z.of_nat k /\
      enemy_health e = level d.
Proof.
  induction ws as [|w0 ws IH]; intros x id j w k d Hw Hd Hpos.
  - destruct j; discriminate.
  - simpl. destruct j as [|j]; simpl in Hw.
    + injection Hw as ->.
      destruct (week_enemies_cell x (days w) 0 id k d Hd Hpos) as (e & Hin & Hx & Hy & Hh).
      exists e. split; [apply in_or_app; left; exact Hin|]. repeat split; try assumption; lia.
    + destruct (IH (x + 1) (id + List.length (week_enemies x 0 id (days w0)))%nat
                  j w k d Hw Hd Hpos) as (e & Hin & Hx & Hy & Hh).
      exists e. split; [apply in_or_app; right; exact Hin|]. repeat split; try assumption; lia.
Qed.

Lemma grid_enemies_cells_NoDup (ws : list ContributionWeek) :
  forall x id,
    NoDup (map (fun e => (enemy_x e, enemy_y e)) (grid_enemies x id ws)).
Proof.
  induction ws as [|w ws IH]; intros x id; simpl; [constructor|].
  rewrite map_app. apply NoDup_app.
  - assert (H := week_enemies_rows_NoDup x (days w) 0 id).
    remember (week_enemies x 0 id (days w)) as l. clear Heql.
    induction l as [|e l IHl]; simpl in *; [constructor|].
    inversion H as [|? ? Hnotin Hnd]; subst. constructor; [|apply IHl; exact Hnd].
    intro Hin. apply Hnotin. apply in_map_iff in Hin.
    destruct Hin as (e' & Heq & Hin'). apply in_map_iff. exists e'.
    split; [congruence|exact Hin'].
  - apply IH.
  - intros p H1 H2. apply in_map_iff in H1. destruct H1 as (e1 & <- & H1).
    apply in_map_iff in H2. destruct H2 as (e2 & Heq & H2).
    apply week_enemies_In in H1. apply grid_enemies_In in H2.
    injection Heq as Hx Hy. lia.
Qed.

(** ** Construction *)

Section Construction.

Context {constants : Constants}.

Lemma cell_level_Some (data : ContributionData) (w d l : Z) :
  cell_level data w d = Some l ->
  0 <= w /\ 0 <= d /\
  exists week day, nth_error (weeks data) (Z.to_nat w) = Some week /\
    nth_error (days week) (Z.to_nat d) = Some day /\ level day = l.
Proof.
  unfold cell_level. intro H.
  destruct (Z.ltb_spec w 0); [discriminate|].
  destruct (Z.ltb_spec d 0); [discriminate|]. simpl in H.
  destruct (nth_error (weeks data) (Z.to_nat w)) as [week|]; [|discriminate].
  destruct (nth_error (days week) (Z.to_nat d)) as [day|] eqn:E; [|discriminate].
  simpl in H. injection H as H. repeat split; try assumption.
  exists week, day. auto.
Qed.

Lemma grid_enemy_at_cell (data : ContributionData) (w d l : Z) :
  cell_level data w d = Some l -> 0 < l ->
  exists e, In e (grid_enemies 0 0 (weeks data)) /\
    enemy_x e = w /\ enemy_y e = d /\ enemy_health e = l.
Proof.
  intros H Hpos. apply cell_level_Some in H.
  destruct H as (Hw & Hd & week & day & Hweek & Hday & <-).
  destruct (grid_enemies_cell (weeks data) 0 0 _ _ _ _ Hweek Hday Hpos)
    as (e & Hin & Hx & Hy & Hh).
  exists e. repeat split; try assumption; lia.
Qed.

Lemma grid_enemy_cell_level (data : ContributionData) (e : Enemy) :
  In e (grid_enemies 0 0 (weeks data)) ->
  0 < enemy_health e /\
  cell_level data (enemy_x e) (enemy_y e) = Some (enemy_health e).
Proof.
  intro Hin. apply grid_enemies_In in Hin.
  destruct Hin as (Hx & Hy & Hh & week & Hweek & Hday).
  split; [exact Hh|]. unfold cell_level.
  destruct (Z.ltb_spec (enemy_x e) 0); [lia|].
  destruct (Z.ltb_spec (enemy_y e) 0); [lia|]. simpl.
  rewrite Z.sub_0_r in Hweek. rewrite Hweek, Hday. reflexivity.
Qed.

(** C9: right after construction there is exactly one enemy per cell of
    positive intensity and none for the other cells: the enemies are as
    many as the positive cells, no two share a cell, every enemy sits on a
    cell whose intensity is its health, and every positive cell has its
    enemy, at the cell's (column, row) and with the cell's intensity as
    health. *)
Theorem initial_enemies_match_grid (seed : nat -> Q) (data : ContributionData) :
  exists st,
    GameState_new seed data = Ok tt st /\
    List.length (enemies st) = positive_cells data /\
    NoDup (map (fun e => (enemy_x e, enemy_y e)) (enemies st)) /\
    (forall e, In e (enemies st) ->
       0 < enemy_health e /\
       cell_level data (enemy_x e) (enemy_y e) = Some (enemy_health e)) /\
    (forall w d l, cell_level data w d = Some l -> 0 < l ->
       exists e, In e (enemies st) /\
         enemy_x e = w /\ enemy_y e = d /\ enemy_health e = l).
Proof.
  destruct (GameState_new_eq seed data) as (sf & r & E).
  eexists. split; [exact E|]. simpl.
  split; [apply grid_enemies_length|].
  split; [apply grid_enemies_cells_NoDup|].
  split; [apply grid_enemy_cell_level|apply grid_enemy_at_cell].
Qed.

(** C3, as the code has it: the constructor validates nothing and always
    returns; a cell of negative intensity is skipped like an empty cell, and
    a cell of intensity above 4 gets an enemy whose health is that
    intensity. *)
Theorem construction_accepts_any_intensity (seed : nat -> Q) (data : ContributionData) :
  exists st,
    GameState_new seed data = Ok tt st /\
    (forall w d l, cell_level data w d = Some l -> l < 0 ->
       forall e, In e (enemies st) -> (enemy_x e, enemy_y e) <> (w, d)) /\
    (forall w d l, cell_level data w d = Some l -> 4 < l ->
       exists e, In e (enemies st) /\
         enemy_x e = w /\ enemy_y e = d /\ enemy_health e = l).
Proof.
  destruct (GameState_new_eq seed data) as (sf & r & E).
  eexists. split; [exact E|]. simpl. split.
  - intros w d l Hcell Hneg e Hin Heq. injection Heq as <- <-.
    apply grid_enemy_cell_level in Hin. destruct Hin as (Hpos & Hcell').
    rewrite Hcell in Hcell'. injection Hcell' as ->. lia.
  - intros w d l Hcell Hbig. apply grid_enemy_at_cell with (l := l); [exact Hcell|lia].
Qed.

(** C10: right after construction the ship stands on its target column 25
    with no cooldown, so it is not moving, can shoot, and the state can
    take an action. *)
Theorem can_take_action_after_construction (seed : nat -> Q) (data : ContributionData) :
  exists st,
    GameState_new seed data = Ok tt st /\
    ship_x (ship st) = 25%Q /\
    ship_target_x (ship st) = ship_x (ship st) /\
    ship_shoot_cooldown (ship st) = 0 /\
    Ship_is_moving (ship st) = false /\
    Ship_can_shoot (ship st) = true /\
    GameState_can_take_action st = true.
Proof.
  destruct (GameState_new_eq seed data) as (sf & r & E).
  eexists. split; [exact E|]. simpl. repeat split.
Qed.

End Construction.

(** C3 fails as stated: a grid with an intensity of 5 and one of -1 is
    accepted, the constructor returns, and an enemy of health 5 exists. *)
Lemma construction_accepts_malformed_grid :
  cell_level (sample_grid [[5; -1]]) 0 0 = Some 5 /\
  cell_level (sample_grid [[5; -1]]) 0 1 = Some (-1) /\
  raises (@GameState_new sample_constants sample_seed (sample_grid [[5; -1]])) = false /\
  enemies (final_state
    (@GameState_new sample_constants sample_seed (sample_grid [[5; -1]])))
  = [{| enemy_id := 0; enemy_x := 0; enemy_y := 0; enemy_health := 5 |}].
Proof.
  repeat split; vm_compute; reflexivity.
Qed.

(** ** Truncation *)

Lemma py_int_inject_Z (x : Q) (n : Z) : (x == inject_Z n)%Q -> py_int x = n.
Proof.
  unfold Qeq, py_int. simpl. intro H. rewrite Z.mul_1_r in H. rewrite H.
  apply Z.quot_mul. discriminate.
Qed.

Lemma py_int_nonneg (x : Q) :
  (0 <= x)%Q -> py_int x = Qfloor x.
Proof.
  destruct x as [n d]. unfold Qle, py_int, Qfloor. simpl. intro H.
  apply Z.quot_div_nonneg; lia.
Qed.

Lemma py_int_nonpos (x : Q) :
  (x <= 0)%Q -> py_int x = Qceiling x.
Proof.
  destruct x as [n d]. unfold Qle, py_int, Qceiling, Qfloor. simpl. intro H.
  rewrite <- (Z.opp_involutive n) at 1. rewrite Z.quot_opp_l by discriminate.
  f_equal. apply Z.quot_div_nonneg; lia.
Qed.

(** [int(x)] lies between 0 and [x], less than one away from [x]. *)
Lemma py_int_toward_zero (x : Q) :
  ((0 <= x /\ inject_Z (py_int x) <= x /\ x < inject_Z (py_int x) + 1) \/
   (x <= 0 /\ x <= inject_Z (py_int x) /\ inject_Z (py_int x) - 1 < x))%Q.
Proof.
  destruct (Qlt_le_dec x 0) as [Hneg|Hpos].
  - right. assert (Hle : (x <= 0)%Q) by (apply Qlt_le_weak; exact Hneg).
    rewrite (py_int_nonpos x Hle). split; [exact Hle|]. split.
    + apply Qle_ceiling.
    + pose proof (Qceiling_lt x) as H. unfold Z.sub in H.
      rewrite inject_Z_plus, inject_Z_opp in H.
      change (inject_Z 1) with 1%Q in H. lra.
  - left. rewrite (py_int_nonneg x Hpos). split; [exact Hpos|]. split.
    + apply Qfloor_le.
    + pose proof (Qlt_floor x) as H. rewrite inject_Z_plus in H.
      change (inject_Z 1) with 1%Q in H. exact H.
Qed.

(** ** Commands *)

Section Commands.

Context {constants : Constants}.

Lemma GameState_shoot_eq (st : GameState) :
  GameState_shoot st
  = Ok tt
      (set_ship
         {| ship_x := ship_x (ship st); ship_target_x := ship_target_x (ship st);
            ship_shoot_cooldown := SHIP_SHOOT_COOLDOWN_FRAMES |}
         (set_bullets
            (bullets st ++
             [{| bullet_id := next_id st; bullet_x := py_int (ship_x (ship st));
                 bullet_y := SHIP_POSITION_Y - 1 |}])
            (set_next_id (S (next_id st)) st))).
Proof. reflexivity. Qed.

(** C4, as the code has it: [shoot()] always returns and appends exactly one
    bullet; its column is [int(x)], the ship position truncated toward zero
    (between 0 and [x], less than one away from [x], and [x] itself when [x]
    is an integer); its row is [SHIP_POSITION_Y - 1]; the cooldown becomes
    [SHIP_SHOOT_COOLDOWN_FRAMES]; nothing else of the ship, the enemies or
    the explosions changes. *)
Theorem shoot_creates_bullet_at_truncated_column (st : GameState) :
  exists b st',
    GameState_shoot st = Ok tt st' /\
    bullets st' = bullets st ++ [b] /\
    bullet_x b = py_int (ship_x (ship st)) /\
    ((0 <= ship_x (ship st) /\ inject_Z (bullet_x b) <= ship_x (ship st) /\
      ship_x (ship st) < inject_Z (bullet_x b) + 1) \/
     (ship_x (ship st) <= 0 /\ ship_x (ship st) <= inject_Z (bullet_x b) /\
      inject_Z (bullet_x b) - 1 < ship_x (ship st)))%Q /\
    (forall n, (ship_x (ship st) == inject_Z n)%Q -> bullet_x b = n) /\
    bullet_y b = (SHIP_POSITION_Y - 1)%Q /\
    ship_shoot_cooldown (ship st') = SHIP_SHOOT_COOLDOWN_FRAMES /\
    ship_x (ship st') = ship_x (ship st) /\
    ship_target_x (ship st') = ship_target_x (ship st) /\
    enemies st' = enemies st /\
    explosions st' = explosions st.
Proof.
  eexists _, _. split; [apply GameState_shoot_eq|]. simpl.
  split; [reflexivity|]. split; [reflexivity|].
  split; [apply py_int_toward_zero|].
  split; [intros n Hn; apply py_int_inject_Z; exact Hn|].
  repeat split.
Qed.

(** C2, as the code has it: neither command is checked. [move_to(x)]
    returns for every integer [x] and makes it the target column, inside
    the grid or not; [shoot()] returns whatever the cooldown is, appends a
    bullet and restarts the cooldown. Nothing is raised. *)
Theorem commands_are_not_validated (st : GameState) :
  (forall x, exists st',
     run (MoveTo x) st = Ok tt st' /\
     ship_target_x (ship st') = inject_Z x /\
     ship_x (ship st') = ship_x (ship st) /\
     ship_shoot_cooldown (ship st') = ship_shoot_cooldown (ship st) /\
     bullets st' = bullets st) /\
  (exists st',
     run Shoot st = Ok tt st' /\
     List.length (bullets st') = S (List.length (bullets st)) /\
     ship_shoot_cooldown (ship st') = SHIP_SHOOT_COOLDOWN_FRAMES).
Proof.
  split.
  - intro x. eexists. split; [reflexivity|]. simpl. repeat split.
  - eexists. split; [apply GameState_shoot_eq|]. simpl.
    rewrite length_app, Nat.add_comm. split; reflexivity.
Qed.

End Commands.

(** C4 fails as stated: a ship on its way from column 25 to column 26
    stands at 25.75 after three steps; a shot from there gets column 25,
    while the nearest integer is 26. *)
Lemma shoot_column_is_not_nearest_integer :
  Qeq (ship_x (ship (sample_after [[1]] [MoveTo 26; Animate; Animate; Animate])))
      (103 # 4) /\
  map bullet_x
    (bullets (final_state
      (@GameState_shoot sample_constants
         (sample_after [[1]] [MoveTo 26; Animate; Animate; Animate]))))
  = [25] /\
  nearest_integer (103 # 4) 26 /\
  ~ nearest_integer (103 # 4) 25.
Proof.
  split; [vm_compute; reflexivity|]. split; [vm_compute; reflexivity|].
  split; [unfold nearest_integer; vm_compute; discriminate|].
  unfold nearest_integer. vm_compute. intro H. apply H. reflexivity.
Qed.

(** C2 fails as stated: with the cooldown at 15 a second [shoot()] returns
    and fires a second bullet, and [move_to] takes the columns -3 and 1000
    as targets; no call raises. *)
Lemma invalid_commands_are_executed :
  ship_shoot_cooldown (ship (sample_after [[1]] [Shoot])) = 15 /\
  raises (@run sample_constants Shoot (sample_after [[1]] [Shoot])) = false /\
  List.length (bullets (sample_after [[1]] [Shoot])) = 1%nat /\
  List.length (bullets (final_state
    (@run sample_constants Shoot (sample_after [[1]] [Shoot])))) = 2%nat /\
  raises (@run sample_constants (MoveTo (-3)) (sample_new [[1]])) = false /\
  ship_target_x (ship (final_state
    (@run sample_constants (MoveTo (-3)) (sample_new [[1]])))) = inject_Z (-3) /\
  raises (@run sample_constants (MoveTo 1000) (sample_new [[1]])) = false /\
  ship_target_x (ship (final_state
    (@run sample_constants (MoveTo 1000) (sample_new [[1]])))) = inject_Z 1000.
Proof.
  repeat split; vm_compute; reflexivity.
Qed.

(** ** The ship *)


Section ShipFacts.

Context {constants : Constants}.





Section PositiveSpeed.

Hypothesis speed_positive : (0 < SHIP_SPEED)%Q.







End PositiveSpeed.

End ShipFacts.

(** ** Lists under [remove] and attribute writes *)

Section ListFacts.

Context {A : Type}.
Variable p : A -> bool.

Lemma list_remove_split (l l' : list A) :
  list_remove p l = Some l' ->
  exists l1 a l2, l = l1 ++ a :: l2 /\ l' = l1 ++ l2 /\ p a = true /\
    Forall (fun b => p b = false) l1.
Proof.
  revert l'. induction l as [|a l IH]; intros l' H; simpl in H; [discriminate|].
  destruct (p a) eqn:E.
  - injection H as <-. exists [], a, l. repeat split; auto.
  - destruct (list_remove p l) as [r|]; [|discriminate]. injection H as <-.
    destruct (IH r eq_refl) as (l1 & b & l2 & -> & -> & Hb & Hl1).
    exists (a :: l1), b, l2. repeat split; auto.
Qed.

Lemma list_remove_found (l : list A) (a : A) :
  In a l -> p a = true -> exists l', list_remove p l = Some l'.
Proof.
  induction l as [|b l IH]; intros Hin Ha; [contradiction|]. simpl.
  destruct (p b) eqn:E; [eexists; reflexivity|].
  destruct Hin as [->|Hin]; [congruence|].
  destruct (IH Hin Ha) as (l' & ->). eexists; reflexivity.
Qed.

Lemma list_remove_missing (l : list A) :
  Forall (fun b => p b = false) l -> list_remove p l = None.
Proof.
  induction 1 as [|b l Hb _ IH]; simpl; [reflexivity|]. rewrite Hb, IH. reflexivity.
Qed.

Lemma list_remove_length (l l' : list A) :
  list_remove p l = Some l' -> List.length l = S (List.length l').
Proof.
  intro H. destruct (list_remove_split _ _ H) as (l1 & a & l2 & -> & -> & _).
  rewrite !length_app. simpl. lia.
Qed.

Lemma list_remove_In (l l' : list A) (b : A) :
  list_remove p l = Some l' -> In b l' -> In b l.
Proof.
  intros H Hin. destruct (list_remove_split _ _ H) as (l1 & a & l2 & -> & -> & _).
  apply in_app_or in Hin. apply in_or_app. simpl. tauto.
Qed.

Lemma list_remove_keeps (l l' : list A) (b : A) :
  list_remove p l = Some l' -> In b l -> p b = false -> In b l'.
Proof.
  intros H Hin Hb. destruct (list_remove_split _ _ H) as (l1 & a & l2 & -> & -> & Ha & _).
  apply in_app_or in Hin. apply in_or_app. simpl in Hin.
  destruct Hin as [Hin|[->|Hin]]; auto. congruence.
Qed.

Lemma list_remove_Forall (P : A -> Prop) (l l' : list A) :
  list_remove p l = Some l' -> Forall P l -> Forall P l'.
Proof.
  intros H HP. apply Forall_forall. intros b Hb.
  eapply Forall_forall; [exact HP|]. eapply list_remove_In; eassumption.
Qed.

Variable x : A.

Lemma list_store_length (l : list A) :
  List.length (list_store p x l) = List.length l.
Proof. apply length_map. Qed.

Lemma list_store_In (l : list A) (b : A) :
  In b (list_store p x l) ->
  (b = x /\ exists a, In a l /\ p a = true) \/ (In b l /\ p b = false).
Proof.
  unfold list_store. intro H. apply in_map_iff in H. destruct H as (a & Hb & Hin).
  destruct (p a) eqn:E; subst; [left|right]; eauto.
Qed.

Lemma list_store_self (l : list A) (a : A) :
  In a l -> p a = true -> In x (list_store p x l).
Proof.
  intros Hin Ha. unfold list_store. apply in_map_iff. exists a. rewrite Ha. auto.
Qed.

Lemma list_store_other (l : list A) (b : A) :
  In b l -> p b = false -> In b (list_store p x l).
Proof.
  intros Hin Hb. unfold list_store. apply in_map_iff. exists b. rewrite Hb. auto.
Qed.

Lemma list_store_absent (l : list A) :
  Forall (fun b => p b = false) l -> list_store p x l = l.
Proof.
  induction 1 as [|b l Hb _ IH]; simpl; [reflexivity|]. rewrite Hb. f_equal. exact IH.
Qed.

End ListFacts.

(** Identities: [p] recognises the elements whose identity is [k]. *)
Section Identities.

Context {A : Type}.
Variable id_of : A -> nat.
Variable p : A -> bool.
Variable k : nat.
Hypothesis p_id : forall a, p a = true <-> id_of a = k.

Lemma p_false (a : A) : p a = false <-> id_of a <> k.
Proof.
  rewrite <- p_id. destruct (p a); split; congruence.
Qed.

Lemma list_store_ids (x : A) (l : list A) :
  id_of x = k -> map id_of (list_store p x l) = map id_of l.
Proof.
  intro Hx. unfold list_store. rewrite map_map. apply map_ext_in. intros a _.
  destruct (p a) eqn:E; [|reflexivity]. apply p_id in E. congruence.
Qed.

Lemma NoDup_ids_others (l1 l2 : list A) (a : A) :
  NoDup (map id_of (l1 ++ a :: l2)) -> id_of a = k ->
  Forall (fun b => p b = false) (l1 ++ l2).
Proof.
  intros Hnd Ha. rewrite map_app in Hnd. simpl in Hnd.
  apply NoDup_remove in Hnd. destruct Hnd as (_ & Hnotin).
  apply Forall_forall. intros b Hb. apply p_false. intro Hk.
  apply Hnotin. rewrite <- map_app. apply in_map_iff. exists b. split; [congruence|exact Hb].
Qed.

Lemma list_remove_gone (l l' : list A) :
  NoDup (map id_of l) -> list_remove p l = Some l' ->
  Forall (fun b => p b = false) l'.
Proof.
  intros Hnd H. destruct (list_remove_split _ _ _ H) as (l1 & a & l2 & -> & -> & Ha & _).
  apply NoDup_ids_others with (a := a); [exact Hnd|]. apply p_id. exact Ha.
Qed.

Lemma list_remove_ids_ok (l l' : list A) (n : nat) :
  ids_ok id_of l n -> list_remove p l = Some l' -> ids_ok id_of l' n.
Proof.
  intros (Hnd & Hfresh) H. split.
  - destruct (list_remove_split _ _ _ H) as (l1 & a & l2 & -> & -> & _).
    rewrite map_app in *. simpl in Hnd. apply NoDup_remove_1 in Hnd. exact Hnd.
  - eapply list_remove_Forall; eassumption.
Qed.

Lemma list_store_ids_ok (x : A) (l : list A) (n : nat) :
  ids_ok id_of l n -> id_of x = k -> ids_ok id_of (list_store p x l) n.
Proof.
  intros (Hnd & Hfresh) Hx. split.
  - rewrite list_store_ids by exact Hx. exact Hnd.
  - apply Forall_forall. intros b Hb. apply list_store_In in Hb.
    destruct Hb as [(-> & a & Hin & Ha)|(Hin & _)].
    + apply p_id in Ha. rewrite Hx, <- Ha. eapply Forall_forall in Hfresh; eauto.
    + eapply Forall_forall in Hfresh; eauto.
Qed.

(** With distinct identities, a write followed by [remove] leaves what
    [remove] alone leaves. *)
Lemma list_remove_store (x : A) (l : list A) :
  NoDup (map id_of l) -> id_of x = k ->
  list_remove p (list_store p x l) = list_remove p l.
Proof.
  intros Hnd Hx. induction l as [|a l IH]; [reflexivity|]. simpl.
  destruct (p a) eqn:E.
  - assert (Hpx : p x = true) by (apply p_id; exact Hx). rewrite Hpx.
    f_equal. apply list_store_absent.
    apply (NoDup_ids_others [] l a); [exact Hnd|apply p_id; exact E].
  - rewrite E. simpl in Hnd. inversion Hnd; subst. rewrite IH by assumption.
    reflexivity.
Qed.

(** With distinct identities, a write changes the one element it is
    about. *)
Lemma list_store_split (x : A) (l1 l2 : list A) (a : A) :
  NoDup (map id_of (l1 ++ a :: l2)) -> id_of a = k ->
  list_store p x (l1 ++ a :: l2) = l1 ++ x :: l2.
Proof.
  intros Hnd Ha. pose proof (NoDup_ids_others l1 l2 a Hnd Ha) as Hothers.
  apply Forall_app in Hothers. destruct Hothers as (H1 & H2).
  unfold list_store. rewrite map_app. simpl.
  fold (list_store p x l1). fold (list_store p x l2).
  rewrite !list_store_absent by assumption.
  assert (Hpa : p a = true) by (apply p_id; exact Ha). rewrite Hpa. reflexivity.
Qed.

End Identities.

Lemma ids_ok_weaken {A} (id_of : A -> nat) (l : list A) (n m : nat) :
  ids_ok id_of l n -> (n <= m)%nat -> ids_ok id_of l m.
Proof.
  intros (Hnd & Hfresh) Hle. split; [exact Hnd|].
  eapply Forall_impl; [|exact Hfresh]. simpl. intros; lia.
Qed.

Lemma ids_ok_append {A} (id_of : A -> nat) (l : list A) (x : A) (n : nat) :
  ids_ok id_of l n -> id_of x = n -> ids_ok id_of (l ++ [x]) (S n).
Proof.
  intros (Hnd & Hfresh) Hx. split.
  - rewrite map_app. simpl. apply NoDup_app; [exact Hnd|constructor; [simpl; tauto|constructor]|].
    intros i Hi [<-|[]]. apply in_map_iff in Hi. destruct Hi as (a & Ha & Hin).
    eapply Forall_forall in Hfresh; [|exact Hin]. simpl in Hfresh. lia.
  - apply Forall_app. split.
    + eapply Forall_impl; [|exact Hfresh]. simpl. intros; lia.
    + constructor; [lia|constructor].
Qed.

Lemma is_enemy_id (self a : Enemy) :
  is_enemy self a = true <-> enemy_id a = enemy_id self.
Proof. apply Nat.eqb_eq. Qed.

Lemma is_bullet_id (self a : Bullet) :
  is_bullet self a = true <-> bullet_id a = bullet_id self.
Proof. apply Nat.eqb_eq. Qed.

Lemma is_explosion_id (self a : Explosion) :
  is_explosion self a = true <-> explosion_id a = explosion_id self.
Proof. apply Nat.eqb_eq. Qed.

(** ** Loops *)

Section LoopFacts.

Context {A : Type}.
Variable attr : GameState -> list A.
Variable body : A -> M unit.

(** What every call of the body keeps, the loop keeps, however it ends. *)
Lemma for_in_from_final (I : GameState -> Prop) :
  (forall x st, I st -> In x (attr st) -> I (final_state (body x st))) ->
  forall fuel i st, I st -> I (final_state (for_in_from attr body fuel i st)).
Proof.
  intros Hbody fuel. induction fuel as [|fuel IH]; intros i st HI; simpl.
  - destruct (nth_error (attr st) i); exact HI.
  - destruct (nth_error (attr st) i) as [x|] eqn:E; [|exact HI].
    unfold bind. pose proof (Hbody x st HI (nth_error_In _ _ E)) as Hx.
    destruct (body x st) as [[] st'|e st'|st']; simpl in *; auto.
Qed.

(** What every returning call of the body keeps, a returning loop keeps. *)
Lemma for_in_from_keeps (I : GameState -> Prop) :
  (forall x st st', I st -> In x (attr st) -> body x st = Ok tt st' -> I st') ->
  forall fuel i st st',
    I st -> for_in_from attr body fuel i st = Ok tt st' -> I st'.
Proof.
  intros Hbody fuel. induction fuel as [|fuel IH]; intros i st st' HI H; simpl in H.
  - destruct (nth_error (attr st) i); [discriminate|]. injection H as <-. exact HI.
  - destruct (nth_error (attr st) i) as [x|] eqn:E; [|injection H as <-; exact HI].
    unfold bind in H. destruct (body x st) as [[] st1|e st1|st1] eqn:Eb; try discriminate.
    eapply IH; [|exact H]. eapply Hbody; [exact HI|exact (nth_error_In _ _ E)|exact Eb].
Qed.

(** A loop whose body returns and does not grow the list returns, with the
    index past the end of the list. The invariant may mention the index. *)
Lemma for_in_from_returns (J : nat -> GameState -> Prop) :
  (forall i x st, J i st -> nth_error (attr st) i = Some x ->
     exists st', body x st = Ok tt st' /\ J (S i) st' /\
       (List.length (attr st') <= List.length (attr st))%nat) ->
  forall fuel i st,
    J i st -> (List.length (attr st) <= fuel + i)%nat ->
    exists j st', for_in_from attr body fuel i st = Ok tt st' /\ J j st' /\
      (List.length (attr st') <= j)%nat.
Proof.
  intros Hbody fuel. induction fuel as [|fuel IH]; intros i st HJ Hlen; simpl.
  - destruct (nth_error (attr st) i) eqn:E.
    + assert (Hi : (i < List.length (attr st))%nat)
        by (apply nth_error_Some; congruence). lia.
    + exists i, st. apply nth_error_None in E. auto.
  - destruct (nth_error (attr st) i) as [x|] eqn:E.
    + destruct (Hbody i x st HJ E) as (st1 & Eb & HJ1 & Hlen1).
      unfold bind. rewrite Eb. apply IH; [exact HJ1|lia].
    + exists i, st. apply nth_error_None in E. auto.
Qed.

(** The fuel of [for_in] is enough whenever the body, when it returns,
    has not grown the list. *)
Lemma for_in_from_fuel :
  (forall x st,
     match body x st with
     | Ok _ st' => (List.length (attr st') <= List.length (attr st))%nat
     | Raise _ _ => True
     | OutOfFuel _ => False
     end) ->
  forall fuel i st,
    (List.length (attr st) <= fuel + i)%nat ->
    forall st', for_in_from attr body fuel i st <> OutOfFuel st'.
Proof.
  intros Hbody fuel. induction fuel as [|fuel IH]; intros i st Hlen st'; simpl.
  - destruct (nth_error (attr st) i) eqn:E; [|discriminate].
    assert (Hi : (i < List.length (attr st))%nat)
      by (apply nth_error_Some; congruence). lia.
  - destruct (nth_error (attr st) i) as [x|] eqn:E; [|discriminate].
    unfold bind. pose proof (Hbody x st) as Hx.
    destruct (body x st) as [[] st1|e st1|st1]; [|discriminate|contradiction].
    apply IH. lia.
Qed.

End LoopFacts.

(** ** The methods, unfolded *)

Section MethodEquations.

Context {constants : Constants}.

Lemma Explosion_animate_eq (x : Explosion) (st : GameState) :
  Explosion_animate x st =
  let st1 :=
    set_explosions (list_store (is_explosion x) (Explosion_aged x) (explosions st))
      (set_calls (calls st ++ [ExplosionAnimate (explosion_id x)]) st) in
  if explosion_max_frames x <=? explosion_frame x + 1 then
    match list_remove (is_explosion x) (explosions st1) with
    | Some l => Ok tt (set_explosions l st1)
    | None => Raise ValueError st1
    end
  else Ok tt st1.
Proof.
  unfold Explosion_animate, bind, log, modify, explosions_remove, ret. simpl.
  destruct (explosion_max_frames x <=? explosion_frame x + 1); reflexivity.
Qed.

Lemma Enemy_take_damage_eq (e : Enemy) (st : GameState) :
  Enemy_take_damage e st =
  let st1 := set_enemies (list_store (is_enemy e) (Enemy_damaged e) (enemies st)) st in
  if enemy_health e - 1 <=? 0 then
    let st2 :=
      set_explosions (explosions st ++ [destruction_explosion e (next_id st)])
        (set_next_id (S (next_id st)) st1) in
    match list_remove (is_enemy e) (enemies st1) with
    | Some l => Ok tt (set_enemies l st2)
    | None => Raise ValueError st2
    end
  else Ok tt st1.
Proof.
  unfold Enemy_take_damage, bind, modify, explosions_append, enemies_remove,
    Explosion_init, new_id, ret, modify. simpl.
  destruct (enemy_health e - 1 <=? 0); reflexivity.
Qed.

Lemma Bullet_animate_eq (b : Bullet) (st : GameState) :
  Bullet_animate b st =
  let st1 :=
    set_bullets (list_store (is_bullet b) (Bullet_moved b) (bullets st))
      (set_calls (calls st ++ [BulletAnimate (bullet_id b)]) st) in
  match find (collides (Bullet_moved b)) (enemies st) with
  | Some e =>
      let st2 :=
        set_explosions (explosions st ++ [impact_explosion b (next_id st)])
          (set_next_id (S (next_id st)) st1) in
      match Enemy_take_damage e st2 with
      | Ok _ st3 =>
          match list_remove (is_bullet b) (bullets st3) with
          | Some l => Bullet_exit_check b (set_bullets l st3)
          | None => Raise ValueError st3
          end
      | Raise ex st3 => Raise ex st3
      | OutOfFuel st3 => OutOfFuel st3
      end
  | None => Bullet_exit_check b st1
  end.
Proof.
  unfold Bullet_animate, bind, log, modify, Bullet__check_collision, gets,
    explosions_append, Explosion_init, new_id, ret, Bullet_exit_check, Bullet_exits,
    Bullet_moved.
  simpl. destruct (find _ (enemies st)) as [e|]; [|reflexivity].
  destruct (Enemy_take_damage e _) as [[] st3|ex st3|st3]; try reflexivity.
  unfold bullets_remove at 1.
  change (is_bullet (Bullet_set_y b (bullet_y b - BULLET_SPEED))) with (is_bullet b).
  destruct (list_remove (is_bullet b) (bullets st3)); reflexivity.
Qed.

End MethodEquations.

(** ** What the methods return *)

Section MethodResults.

Context {constants : Constants}.

Lemma list_without_store {A} (id_of : A -> nat) (p : A -> bool) (k : nat)
    (x a : A) (l : list A) :
  (forall c, p c = true <-> id_of c = k) ->
  NoDup (map id_of l) -> id_of x = k -> In a l -> p a = true ->
  list_remove p (list_store p x l) = Some (list_without p l).
Proof.
  intros Hp Hnd Hx Hin Ha.
  rewrite (list_remove_store id_of p k Hp x l Hnd Hx). unfold list_without.
  destruct (list_remove_found p l a Hin Ha) as (r & ->). reflexivity.
Qed.

Lemma list_without_found {A} (p : A -> bool) (a : A) (l : list A) :
  In a l -> p a = true -> list_remove p l = Some (list_without p l).
Proof.
  intros Hin Ha. unfold list_without.
  destruct (list_remove_found p l a Hin Ha) as (r & ->). reflexivity.
Qed.

Lemma Enemy_take_damage_returns (e : Enemy) (st : GameState) :
  NoDup (map enemy_id (enemies st)) -> In e (enemies st) ->
  Enemy_take_damage e st = Ok tt (Enemy_after_damage e st).
Proof.
  intros Hnd Hin. rewrite Enemy_take_damage_eq. unfold Enemy_after_damage. simpl.
  destruct (enemy_health e - 1 <=? 0); [|reflexivity].
  rewrite (list_without_store enemy_id (is_enemy e) (enemy_id e) _ e);
    auto using is_enemy_id. apply Nat.eqb_refl.
Qed.

Lemma Enemy_after_damage_bullets (e : Enemy) (st : GameState) :
  bullets (Enemy_after_damage e st) = bullets st.
Proof. unfold Enemy_after_damage. destruct (_ <=? _); reflexivity. Qed.

Lemma Explosion_animate_returns (x : Explosion) (st : GameState) :
  NoDup (map explosion_id (explosions st)) -> In x (explosions st) ->
  Explosion_animate x st = Ok tt (Explosion_after_animate x st).
Proof.
  intros Hnd Hin. rewrite Explosion_animate_eq. unfold Explosion_after_animate. simpl.
  destruct (explosion_max_frames x <=? explosion_frame x + 1); [|reflexivity].
  rewrite (list_without_store explosion_id (is_explosion x) (explosion_id x) _ x);
    auto using is_explosion_id. apply Nat.eqb_refl.
Qed.

Lemma Bullet_hits_find (b : Bullet) (st : GameState) :
  Bullet_hits b st = true <->
  exists e, find (collides (Bullet_moved b)) (enemies st) = Some e.
Proof.
  unfold Bullet_hits. destruct (find _ _) as [e|]; split; try discriminate; eauto.
  intros (e & H). discriminate.
Qed.

(** A bullet that neither hits nor leaves, or does one of the two, returns. *)
Lemma Bullet_animate_returns (b : Bullet) (st : GameState) :
  wf st -> In b (bullets st) ->
  Bullet_hits b st && Bullet_exits b = false ->
  Bullet_animate b st = Ok tt (Bullet_after_animate b st).
Proof.
  intros Hwf Hin Hone. rewrite Bullet_animate_eq. unfold Bullet_after_animate.
  unfold Bullet_hits in Hone. cbv zeta.
  assert (Hrm : forall l, l = bullets st ->
            list_remove (is_bullet b) (list_store (is_bullet b) (Bullet_moved b) l)
            = Some (list_without (is_bullet b) l)).
  { intros l ->.
    apply (list_without_store bullet_id (is_bullet b) (bullet_id b) _ b);
      auto using is_bullet_id; [apply Hwf|apply Nat.eqb_refl]. }
  destruct (find (collides (Bullet_moved b)) (enemies st)) as [e|] eqn:Ef.
  - simpl in Hone. apply find_some in Ef. destruct Ef as (He & _).
    rewrite Enemy_take_damage_returns; [|apply Hwf|exact He].
    rewrite Enemy_after_damage_bullets. simpl.
    rewrite (Hrm _ eq_refl). unfold Bullet_exit_check. rewrite Hone. reflexivity.
  - unfold Bullet_exit_check. destruct (Bullet_exits b); [|reflexivity].
    unfold bullets_remove. simpl. rewrite (Hrm _ eq_refl). reflexivity.
Qed.

(** A bullet that both hits and leaves removes itself twice: the second
    [remove] raises. *)
Lemma Bullet_animate_raises (b : Bullet) (st : GameState) :
  wf st -> In b (bullets st) ->
  Bullet_hits b st && Bullet_exits b = true ->
  raises (Bullet_animate b st) = true.
Proof.
  intros Hwf Hin Hboth. apply andb_true_iff in Hboth. destruct Hboth as (Hhit & Hexit).
  rewrite Bullet_animate_eq. cbv zeta. unfold Bullet_hits in Hhit.
  destruct (find (collides (Bullet_moved b)) (enemies st)) as [e|] eqn:Ef; [|discriminate].
  apply find_some in Ef. destruct Ef as (He & _).
  rewrite Enemy_take_damage_returns; [|apply Hwf|exact He].
  rewrite Enemy_after_damage_bullets. simpl.
  rewrite (list_without_store bullet_id (is_bullet b) (bullet_id b) _ b);
    auto using is_bullet_id; [|apply Hwf|apply Nat.eqb_refl].
  unfold Bullet_exit_check. rewrite Hexit. unfold bullets_remove. simpl.
  rewrite list_remove_missing; [reflexivity|].
  apply (list_remove_gone bullet_id (is_bullet b) (bullet_id b) (is_bullet_id b)
           (bullets st)); [apply Hwf|].
  apply list_without_found with (a := b); [exact Hin|apply Nat.eqb_refl].
Qed.

Lemma Bullet_animate_Ok (b : Bullet) (st st' : GameState) :
  wf st -> In b (bullets st) -> Bullet_animate b st = Ok tt st' ->
  Bullet_hits b st && Bullet_exits b = false /\ st' = Bullet_after_animate b st.
Proof.
  intros Hwf Hin H. destruct (Bullet_hits b st && Bullet_exits b) eqn:E.
  - pose proof (Bullet_animate_raises b st Hwf Hin E) as Hr. rewrite H in Hr. discriminate.
  - split; [reflexivity|]. rewrite (Bullet_animate_returns b st Hwf Hin E) in H.
    injection H as <-. reflexivity.
Qed.

End MethodResults.

(** ** Well-formed states *)

Section WellFormed.

Context {constants : Constants}.

Lemma wf_set_calls (st : GameState) (c : list Call) : wf st -> wf (set_calls c st).
Proof. intros [? ? ? ?]. constructor; assumption. Qed.

Lemma wf_set_ship (st : GameState) (s : Ship) : wf st -> wf (set_ship s st).
Proof. intros [? ? ? ?]. constructor; assumption. Qed.

Lemma wf_set_starfield (st : GameState) (s : list Star) : wf st -> wf (set_starfield s st).
Proof. intros [? ? ? ?]. constructor; assumption. Qed.

Lemma wf_set_rand (st : GameState) (r : Random) : wf st -> wf (set_rand r st).
Proof. intros [? ? ? ?]. constructor; assumption. Qed.

Lemma wf_set_bullets (st : GameState) (l : list Bullet) :
  wf st -> ids_ok bullet_id l (next_id st) -> wf (set_bullets l st).
Proof. intros [? ? ? ?] H. constructor; assumption. Qed.

Lemma wf_set_explosions (st : GameState) (l : list Explosion) :
  wf st -> ids_ok explosion_id l (next_id st) -> wf (set_explosions l st).
Proof. intros [? ? ? ?] H. constructor; assumption. Qed.

Lemma wf_append_explosion (st : GameState) (x : Explosion) :
  wf st -> explosion_id x = next_id st ->
  wf (set_explosions (explosions st ++ [x]) (set_next_id (S (next_id st)) st)).
Proof.
  intros [He Hb Hx Ha] Hid. constructor; simpl.
  - eapply ids_ok_weaken; [exact He|lia].
  - eapply ids_ok_weaken; [exact Hb|lia].
  - apply ids_ok_append; assumption.
  - exact Ha.
Qed.

Lemma wf_append_bullet (st : GameState) (b : Bullet) :
  wf st -> bullet_id b = next_id st ->
  wf (set_bullets (bullets st ++ [b]) (set_next_id (S (next_id st)) st)).
Proof.
  intros [He Hb Hx Ha] Hid. constructor; simpl.
  - eapply ids_ok_weaken; [exact He|lia].
  - apply ids_ok_append; assumption.
  - eapply ids_ok_weaken; [exact Hx|lia].
  - exact Ha.
Qed.

Lemma ids_ok_without {A} (id_of : A -> nat) (p : A -> bool) (l : list A) (n : nat) :
  ids_ok id_of l n -> ids_ok id_of (list_without p l) n.
Proof.
  intro H. unfold list_without. destruct (list_remove p l) as [r|] eqn:E; [|exact H].
  destruct H as (Hnd & Hfresh). split.
  - destruct (list_remove_split _ _ _ E) as (l1 & a & l2 & -> & -> & _).
    rewrite map_app in *. simpl in Hnd. apply NoDup_remove_1 in Hnd. exact Hnd.
  - eapply list_remove_Forall; eassumption.
Qed.

Lemma list_without_In {A} (p : A -> bool) (l : list A) (a : A) :
  In a (list_without p l) -> In a l.
Proof.
  unfold list_without. destruct (list_remove p l) as [r|] eqn:E; [|auto].
  eapply list_remove_In; eassumption.
Qed.

Lemma Enemy_after_damage_next_id (e : Enemy) (st : GameState) :
  (next_id st <= next_id (Enemy_after_damage e st))%nat.
Proof. unfold Enemy_after_damage. destruct (_ <=? _); simpl; lia. Qed.

Lemma Enemy_after_damage_wf (e : Enemy) (st : GameState) :
  wf st -> In e (enemies st) -> wf (Enemy_after_damage e st).
Proof.
  intros [He Hb Hx Ha] Hin. unfold Enemy_after_damage.
  destruct (Z.leb_spec (enemy_health e - 1) 0) as [Hdead|Hlive]; constructor; simpl.
  - apply ids_ok_without. eapply ids_ok_weaken; [exact He|lia].
  - eapply ids_ok_weaken; [exact Hb|lia].
  - apply ids_ok_append; [exact Hx|reflexivity].
  - apply Forall_forall. intros a Hain. apply list_without_In in Hain.
    eapply Forall_forall in Ha; eauto.
  - apply (list_store_ids_ok enemy_id (is_enemy e) (enemy_id e) (is_enemy_id e));
      [exact He|reflexivity].
  - exact Hb.
  - exact Hx.
  - apply Forall_forall. intros a Hain. apply list_store_In in Hain.
    destruct Hain as [(-> & _)|(Hain & _)].
    + eapply Forall_forall in Ha; [|exact Hin]. destruct Ha as (Hh & Hy).
      split; simpl; lia.
    + eapply Forall_forall in Ha; eauto.
Qed.

Lemma Bullet_after_animate_wf (b : Bullet) (st : GameState) :
  wf st -> In b (bullets st) -> wf (Bullet_after_animate b st).
Proof.
  intros Hwf Hin. unfold Bullet_after_animate. cbv zeta.
  assert (Hstore : wf (set_bullets
            (list_store (is_bullet b) (Bullet_moved b) (bullets st))
            (set_calls (calls st ++ [BulletAnimate (bullet_id b)]) st))).
  { apply wf_set_bullets; [apply wf_set_calls; exact Hwf|]. simpl.
    apply (list_store_ids_ok bullet_id (is_bullet b) (bullet_id b) (is_bullet_id b));
      [apply Hwf|reflexivity]. }
  destruct (find (collides (Bullet_moved b)) (enemies st)) as [e|] eqn:Ef.
  - apply find_some in Ef. destruct Ef as (He & _).
    apply wf_set_bullets.
    + apply Enemy_after_damage_wf; [|exact He].
      apply (wf_append_explosion _ (impact_explosion b (next_id st)) Hstore).
      reflexivity.
    + apply ids_ok_without. eapply ids_ok_weaken; [apply Hwf|].
      etransitivity; [|apply Enemy_after_damage_next_id]. simpl. lia.
  - destruct (Bullet_exits b); [|exact Hstore].
    apply wf_set_bullets; [exact Hstore|]. apply ids_ok_without. apply Hwf.
Qed.

Lemma Explosion_after_animate_wf (x : Explosion) (st : GameState) :
  wf st -> wf (Explosion_after_animate x st).
Proof.
  intros Hwf. unfold Explosion_after_animate. cbv zeta.
  destruct (explosion_max_frames x <=? explosion_frame x + 1);
    apply wf_set_explosions; try (apply wf_set_calls; exact Hwf); simpl.
  - apply ids_ok_without. apply Hwf.
  - apply (list_store_ids_ok explosion_id (is_explosion x) (explosion_id x)
             (is_explosion_id x)); [apply Hwf|reflexivity].
Qed.

(** *** Enemies only lose health and leave *)



Lemma enemies_decay_same (st st' : GameState) :
  enemies st' = enemies st -> enemies_decay st st'.
Proof. intros E e He. rewrite E in He. exists e. repeat split; auto. lia. Qed.

Lemma Enemy_after_damage_decay (e : Enemy) (st : GameState) :
  In e (enemies st) -> enemies_decay st (Enemy_after_damage e st).
Proof.
  intros Hin e' He'. unfold Enemy_after_damage in He'.
  destruct (enemy_health e - 1 <=? 0); simpl in He'.
  - apply list_without_In in He'. exists e'. repeat split; auto. lia.
  - apply list_store_In in He'. destruct He' as [(-> & _)|(He' & _)].
    + exists e. repeat split; auto. simpl. lia.
    + exists e'. repeat split; auto. lia.
Qed.

Lemma Bullet_after_animate_decay (b : Bullet) (st : GameState) :
  enemies_decay st (Bullet_after_animate b st).
Proof.
  unfold Bullet_after_animate. cbv zeta.
  destruct (find (collides (Bullet_moved b)) (enemies st)) as [e|] eqn:Ef.
  - apply find_some in Ef. destruct Ef as (He & _).
    intros e' He'. simpl in He'.
    match type of He' with In _ (enemies (Enemy_after_damage _ ?s)) =>
      exact (Enemy_after_damage_decay e s He e' He') end.
  - destruct (Bullet_exits b); apply enemies_decay_same; reflexivity.
Qed.

End WellFormed.

(** ** The pass *)

Section Pass.

Context {constants : Constants}.

Lemma Star_animate_eq (star : Star) (st : GameState) :
  exists star' r, Star_animate star st = Ok star' (set_rand r st).
Proof.
  unfold Star_animate.
  destruct (Qltb (SHIP_POSITION_Y + 4) (star_y star + star_speed star)).
  - eexists _, _. reflexivity.
  - eexists _, (rand st). unfold ret. destruct st; reflexivity.
Qed.

Lemma for_each_update_stars (l : list Star) :
  forall st, exists l' r, for_each_update Star_animate l st = Ok l' (set_rand r st).
Proof.
  induction l as [|star l IH]; intro st; simpl.
  - exists [], (rand st). unfold ret. destruct st; reflexivity.
  - unfold bind. destruct (Star_animate_eq star st) as (star' & r1 & ->).
    destruct (IH (set_rand r1 st)) as (l' & r2 & ->).
    exists (star' :: l'), r2. reflexivity.
Qed.

Lemma Starfield_animate_eq (st : GameState) :
  exists sf r, Starfield_animate st = Ok tt (set_starfield sf (set_rand r st)).
Proof.
  unfold Starfield_animate, bind, gets.
  destruct (for_each_update_stars (starfield st) st) as (l' & r & ->).
  exists l', r. reflexivity.
Qed.

(** What every entity-level call of a pass keeps, the pass keeps, however
    it ends. *)
Lemma GameState_animate_final (I : GameState -> Prop) :
  (forall m st, I st -> pass_call m st -> I (final_state (m st))) ->
  forall st, I st -> I (final_state (GameState_animate st)).
Proof.
  intros Hcall st HI. unfold GameState_animate, bind.
  pose proof (Hcall _ st HI (pass_starfield st)) as H1.
  destruct (Starfield_animate st) as [[] st1|e st1|st1]; simpl in H1; try exact H1.
  pose proof (Hcall _ st1 H1 (pass_ship st1)) as H2.
  destruct (on_ship Ship_animate st1) as [[] st2|e st2|st2]; simpl in H2; try exact H2.
  assert (H3 : I (final_state (for_in enemies Enemy_animate st2))).
  { unfold for_in. apply for_in_from_final; [|exact H2].
    intros x s Hs Hin. apply Hcall; [exact Hs|constructor; exact Hin]. }
  destruct (for_in enemies Enemy_animate st2) as [[] st3|e st3|st3]; simpl in H3;
    try exact H3.
  assert (H4 : I (final_state (for_in bullets Bullet_animate st3))).
  { unfold for_in. apply for_in_from_final; [|exact H3].
    intros x s Hs Hin. apply Hcall; [exact Hs|constructor; exact Hin]. }
  destruct (for_in bullets Bullet_animate st3) as [[] st4|e st4|st4]; simpl in H4;
    try exact H4.
  unfold for_in. apply for_in_from_final; [|exact H4].
  intros x s Hs Hin. apply Hcall; [exact Hs|constructor; exact Hin].
Qed.

(** What every returning entity-level call keeps, a returning pass
    keeps. *)
Lemma GameState_animate_keeps (I : GameState -> Prop) :
  (forall m st st', I st -> pass_call m st -> m st = Ok tt st' -> I st') ->
  forall st st', I st -> GameState_animate st = Ok tt st' -> I st'.
Proof.
  intros Hcall st st' HI H. unfold GameState_animate, bind in H.
  destruct (Starfield_animate st) as [[] st1|e st1|st1] eqn:E1; try discriminate.
  pose proof (Hcall _ _ _ HI (pass_starfield st) E1) as H1.
  destruct (on_ship Ship_animate st1) as [[] st2|e st2|st2] eqn:E2; try discriminate.
  pose proof (Hcall _ _ _ H1 (pass_ship st1) E2) as H2.
  destruct (for_in enemies Enemy_animate st2) as [[] st3|e st3|st3] eqn:E3;
    try discriminate.
  assert (H3 : I st3).
  { unfold for_in in E3. eapply for_in_from_keeps; [|exact H2|exact E3].
    intros x s s' Hs Hin Hb. eapply Hcall; [exact Hs|constructor; exact Hin|exact Hb]. }
  destruct (for_in bullets Bullet_animate st3) as [[] st4|e st4|st4] eqn:E4;
    try discriminate.
  assert (H4 : I st4).
  { unfold for_in in E4. eapply for_in_from_keeps; [|exact H3|exact E4].
    intros x s s' Hs Hin Hb. eapply Hcall; [exact Hs|constructor; exact Hin|exact Hb]. }
  unfold for_in in H. eapply for_in_from_keeps; [|exact H4|exact H].
  intros x s s' Hs Hin Hb. eapply Hcall; [exact Hs|constructor; exact Hin|exact Hb].
Qed.

(** A returning pass is a chain of returning entity-level calls. *)
Lemma GameState_animate_reachable (st st' : GameState) :
  reachable st -> GameState_animate st = Ok tt st' -> reachable st'.
Proof.
  intros Hr H. apply (reachable_run Animate st st' Hr H).
Qed.

Lemma pass_call_wf (m : M unit) (st st' : GameState) :
  wf st -> pass_call m st -> m st = Ok tt st' -> wf st'.
Proof.
  intros Hwf Hcall H. destruct Hcall as [st|st|e st Hin|b st Hin|x st Hin].
  - destruct (Starfield_animate_eq st) as (sf & r & E). rewrite E in H.
    injection H as <-. apply wf_set_starfield, wf_set_rand, Hwf.
  - injection H as <-. apply wf_set_ship, Hwf.
  - injection H as <-. apply wf_set_calls, Hwf.
  - apply Bullet_animate_Ok in H; [|exact Hwf|exact Hin]. destruct H as (_ & ->).
    apply Bullet_after_animate_wf; assumption.
  - rewrite Explosion_animate_returns in H; [|apply Hwf|exact Hin].
    injection H as <-. apply Explosion_after_animate_wf, Hwf.
Qed.


Lemma GameState_new_wf (seed : nat -> Q) (data : ContributionData) (st : GameState) :
  GameState_new seed data = Ok tt st -> wf st.
Proof.
  destruct (GameState_new_eq seed data) as (sf & r & E). rewrite E.
  intro H. injection H as <-. constructor; simpl.
  - split.
    + rewrite grid_enemies_ids. apply seq_NoDup.
    + apply Forall_forall. intros e He.
      assert (Hid : In (enemy_id e) (map enemy_id (grid_enemies 0 0 (weeks data))))
        by (apply in_map; exact He).
      rewrite grid_enemies_ids in Hid. apply in_seq in Hid. lia.
  - split; constructor.
  - split; constructor.
  - apply Forall_forall. intros e He. apply grid_enemies_In in He. unfold alive. lia.
Qed.

Lemma run_wf (op : Op) (st st' : GameState) :
  wf st -> run op st = Ok tt st' -> wf st'.
Proof.
  intros Hwf H. destruct op as [x| |]; simpl in H.
  - injection H as <-. apply wf_set_ship, Hwf.
  - rewrite GameState_shoot_eq in H. injection H as <-.
    apply wf_set_ship. apply wf_append_bullet; [exact Hwf|reflexivity].
  - eapply GameState_animate_keeps; [|exact Hwf|exact H].
    intros m s s' Hs Hc Hm. eapply pass_call_wf; eassumption.
Qed.

Lemma reachable_wf (st : GameState) : reachable st -> wf st.
Proof.
  induction 1 as [seed data st H|op st st' _ IH H|m st st' _ IH Hc H].
  - eapply GameState_new_wf; exact H.
  - eapply run_wf; eassumption.
  - eapply pass_call_wf; eassumption.
Qed.


End Pass.

(** ** Enemy health *)

Section EnemyHealth.

Context {constants : Constants}.

Lemma Enemy_after_damage_members (e : Enemy) (st : GameState) :
  wf st -> In e (enemies st) ->
  forall e', In e' (enemies (Enemy_after_damage e st)) <->
    (e' = Enemy_damaged e /\ 0 < enemy_health e - 1) \/
    (In e' (enemies st) /\ enemy_id e' <> enemy_id e).
Proof.
  intros Hwf Hin e'. unfold Enemy_after_damage.
  pose proof (p_false enemy_id (is_enemy e) (enemy_id e) (is_enemy_id e)) as Hpf.
  destruct (Z.leb_spec (enemy_health e - 1) 0) as [Hdead|Hlive]; simpl.
  - pose proof (list_without_found (is_enemy e) e (enemies st) Hin (Nat.eqb_refl _)) as Hrm.
    split.
    + intro H. right. split; [eapply list_remove_In; eassumption|].
      apply Hpf.
      pose proof (list_remove_gone enemy_id (is_enemy e) (enemy_id e) (is_enemy_id e)
                    _ _ (proj1 (wf_enemies st Hwf)) Hrm) as Hgone.
      eapply Forall_forall in Hgone; [exact Hgone|exact H].
    + intros [(_ & H)|(H & Hid)]; [lia|].
      eapply list_remove_keeps; [exact Hrm|exact H|apply Hpf; exact Hid].
  - split.
    + intro H. apply list_store_In in H. destruct H as [(-> & _)|(H & Hp)].
      * left. split; [reflexivity|exact Hlive].
      * right. split; [exact H|apply Hpf; exact Hp].
    + intros [(-> & _)|(H & Hid)].
      * eapply list_store_self; [exact Hin|apply Nat.eqb_refl].
      * apply list_store_other; [exact H|apply Hpf; exact Hid].
Qed.


End EnemyHealth.

(** ** Completion *)

Section Completion.

Context {constants : Constants}.

(** A pass returns when its bullets and explosions return and keep an
    invariant that does not depend on the star field, the random state, the
    ship or the record of calls. *)
Lemma GameState_animate_returns (I : GameState -> Prop) :
  (forall st sf r, I st -> I (set_starfield sf (set_rand r st))) ->
  (forall st s, I st -> I (set_ship s st)) ->
  (forall st c, I st -> I (set_calls c st)) ->
  (forall b st, I st -> In b (bullets st) ->
     exists st', Bullet_animate b st = Ok tt st' /\ I st' /\
       (List.length (bullets st') <= List.length (bullets st))%nat) ->
  (forall x st, I st -> In x (explosions st) ->
     exists st', Explosion_animate x st = Ok tt st' /\ I st' /\
       (List.length (explosions st') <= List.length (explosions st))%nat) ->
  forall st, I st -> exists st', GameState_animate st = Ok tt st' /\ I st'.
Proof.
  intros Hsf Hship Hcalls Hbullet Hexpl st HI. unfold GameState_animate, bind.
  destruct (Starfield_animate_eq st) as (sf & r & ->).
  unfold on_ship at 1, modify at 1.
  set (st2 := set_ship _ _).
  assert (H2 : I st2) by (apply Hship, Hsf, HI).
  destruct (for_in_from_returns enemies Enemy_animate (fun _ => I)) with
    (fuel := List.length (enemies st2)) (i := 0%nat) (st := st2)
    as (j3 & st3 & E3 & H3 & _); [|exact H2|lia|].
  { intros i e s Hs _. eexists. split; [reflexivity|]. split; [|simpl; lia].
    apply Hcalls. exact Hs. }
  unfold for_in at 1. rewrite E3.
  destruct (for_in_from_returns bullets Bullet_animate (fun _ => I)) with
    (fuel := List.length (bullets st3)) (i := 0%nat) (st := st3)
    as (j4 & st4 & E4 & H4 & _); [|exact H3|lia|].
  { intros i b s Hs Hn. apply Hbullet; [exact Hs|exact (nth_error_In _ _ Hn)]. }
  unfold for_in at 1. rewrite E4.
  destruct (for_in_from_returns explosions Explosion_animate (fun _ => I)) with
    (fuel := List.length (explosions st4)) (i := 0%nat) (st := st4)
    as (j5 & st5 & E5 & H5 & _); [|exact H4|lia|].
  { intros i x s Hs Hn. apply Hexpl; [exact Hs|exact (nth_error_In _ _ Hn)]. }
  unfold for_in. rewrite E5. exists st5. auto.
Qed.

Lemma Explosion_animate_returns_any (x : Explosion) (st : GameState) :
  In x (explosions st) ->
  exists st', Explosion_animate x st = Ok tt st' /\
    enemies st' = enemies st /\ bullets st' = bullets st /\
    (List.length (explosions st') <= List.length (explosions st))%nat.
Proof.
  intro Hin. rewrite Explosion_animate_eq. cbv zeta.
  destruct (explosion_max_frames x <=? explosion_frame x + 1).
  - simpl.
    destruct (list_remove_found (is_explosion x)
                (list_store (is_explosion x) (Explosion_aged x) (explosions st))
                (Explosion_aged x)) as (l & E).
    + eapply list_store_self; [exact Hin|apply Nat.eqb_refl].
    + apply Nat.eqb_refl.
    + rewrite E. eexists. split; [reflexivity|]. simpl. repeat split.
      apply list_remove_length in E. rewrite list_store_length in E. lia.
  - eexists. split; [reflexivity|]. simpl. repeat split.
    rewrite list_store_length. lia.
Qed.

Lemma Bullet_animate_no_enemies (b : Bullet) (st : GameState) :
  enemies st = [] -> In b (bullets st) ->
  exists st', Bullet_animate b st = Ok tt st' /\ enemies st' = [] /\
    (List.length (bullets st') <= List.length (bullets st))%nat.
Proof.
  intros Hnone Hin. rewrite Bullet_animate_eq. cbv zeta. rewrite Hnone. simpl.
  unfold Bullet_exit_check. destruct (Bullet_exits b).
  - unfold bullets_remove. simpl.
    destruct (list_remove_found (is_bullet b)
                (list_store (is_bullet b) (Bullet_moved b) (bullets st))
                (Bullet_moved b)) as (l & E).
    + eapply list_store_self; [exact Hin|apply Nat.eqb_refl].
    + apply Nat.eqb_refl.
    + rewrite E. eexists. split; [reflexivity|]. simpl. split; [exact Hnone|].
      apply list_remove_length in E. rewrite list_store_length in E. lia.
  - eexists. split; [reflexivity|]. simpl. split; [exact Hnone|].
    rewrite list_store_length. lia.
Qed.

Lemma run_complete (op : Op) (st : GameState) :
  enemies st = [] ->
  exists st', run op st = Ok tt st' /\ enemies st' = [].
Proof.
  intro Hnone. destruct op as [x| |]; simpl.
  - eexists. split; [reflexivity|exact Hnone].
  - rewrite GameState_shoot_eq. eexists. split; [reflexivity|exact Hnone].
  - apply (GameState_animate_returns (fun s => enemies s = [])); auto.
    + intros b s Hs Hin. apply Bullet_animate_no_enemies; assumption.
    + intros x s Hs Hin.
      destruct (Explosion_animate_returns_any x s Hin) as (s' & E & He & _ & Hl).
      exists s'. split; [exact E|]. split; [congruence|exact Hl].
Qed.

Lemma run_all_complete (ops : list Op) :
  forall st, enemies st = [] ->
    exists st', run_all ops st = Ok tt st' /\ enemies st' = [].
Proof.
  induction ops as [|op ops IH]; intros st Hnone; simpl.
  - exists st. split; [reflexivity|exact Hnone].
  - unfold bind. destruct (run_complete op st Hnone) as (st1 & -> & H1).
    apply IH. exact H1.
Qed.

Lemma GameState_is_complete_iff (st : GameState) :
  GameState_is_complete st = true <-> enemies st = [].
Proof.
  unfold GameState_is_complete. rewrite Nat.eqb_eq. apply length_zero_iff_nil.
Qed.

Lemma week_enemies_none (x : Z) (ds : list ContributionDay) :
  (forall d, In d ds -> level d <= 0) ->
  forall y id, week_enemies x y id ds = [].
Proof.
  induction ds as [|d ds IH]; intros H y id; simpl; [reflexivity|].
  destruct (Z.leb_spec (level d) 0) as [_|Hpos].
  - apply IH. intros d' Hd'. apply H. right. exact Hd'.
  - specialize (H d (or_introl eq_refl)). lia.
Qed.

Lemma grid_enemies_none (ws : list ContributionWeek) :
  (forall w d, In w ws -> In d (days w) -> level d <= 0) ->
  forall x id, grid_enemies x id ws = [].
Proof.
  induction ws as [|w ws IH]; intros H x id; simpl; [reflexivity|].
  rewrite week_enemies_none by (intros d Hd; apply (H w d); [left; reflexivity|exact Hd]).
  simpl. apply IH. intros w' d Hw' Hd. apply (H w' d); [right; exact Hw'|exact Hd].
Qed.

Lemma cell_level_In (data : ContributionData) (w : ContributionWeek) (d : ContributionDay) :
  In w (weeks data) -> In d (days w) ->
  exists i j, cell_level data i j = Some (level d).
Proof.
  intros Hw Hd. apply In_nth_error in Hw. destruct Hw as (i & Hi).
  apply In_nth_error in Hd. destruct Hd as (j & Hj).
  exists (Z.of_nat i), (Z.of_nat j). unfold cell_level.
  destruct (Z.ltb_spec (Z.of_nat i) 0); [lia|].
  destruct (Z.ltb_spec (Z.of_nat j) 0); [lia|]. simpl.
  rewrite !Nat2Z.id, Hi, Hj. reflexivity.
Qed.

(** C7: [is_complete()] is true exactly when no enemy is left (so false
    while one remains); once true it stays true under every operation and
    sequence of operations, and under every entity-level call of a pass,
    all of which return; and on a grid whose cells all have intensity 0 it
    is true as soon as the constructor returns. *)
Theorem completion_is_permanent :
  (forall st, GameState_is_complete st = true <-> enemies st = []) /\
  (forall st op, GameState_is_complete st = true ->
     exists st', run op st = Ok tt st' /\ GameState_is_complete st' = true) /\
  (forall st ops, GameState_is_complete st = true ->
     exists st', run_all ops st = Ok tt st' /\ GameState_is_complete st' = true) /\
  (forall st m, GameState_is_complete st = true -> pass_call m st ->
     GameState_is_complete (final_state (m st)) = true) /\
  (forall seed data,
     (forall w d l, cell_level data w d = Some l -> l = 0) ->
     exists st, GameState_new seed data = Ok tt st /\
       GameState_is_complete st = true).
Proof.
  split; [exact GameState_is_complete_iff|]. split; [|split; [|split]].
  - intros st op H. apply GameState_is_complete_iff in H.
    destruct (run_complete op st H) as (st' & E & H').
    exists st'. split; [exact E|]. apply GameState_is_complete_iff. exact H'.
  - intros st ops H. apply GameState_is_complete_iff in H.
    destruct (run_all_complete ops st H) as (st' & E & H').
    exists st'. split; [exact E|]. apply GameState_is_complete_iff. exact H'.
  - intros st m H Hc. apply GameState_is_complete_iff in H.
    apply GameState_is_complete_iff.
    destruct Hc as [st|st|e st Hin|b st Hin|x st Hin].
    + destruct (Starfield_animate_eq st) as (sf & r & ->). exact H.
    + exact H.
    + exact H.
    + destruct (Bullet_animate_no_enemies b st H Hin) as (st' & -> & H' & _). exact H'.
    + destruct (Explosion_animate_returns_any x st Hin) as (st' & -> & H' & _).
      simpl. congruence.
  - intros seed data Hzero. destruct (GameState_new_eq seed data) as (sf & r & E).
    eexists. split; [exact E|]. apply GameState_is_complete_iff. simpl.
    apply grid_enemies_none. intros w d Hw Hd.
    destruct (cell_level_In data w d Hw Hd) as (i & j & Hc).
    rewrite (Hzero _ _ _ Hc). lia.
Qed.

End Completion.

(** ** Bullets leave the collection once *)

Section BulletSafety.

Context {constants : Constants}.

Lemma bullets_safe_shrink (st st' : GameState) :
  bullets_safe st -> enemies_decay st st' ->
  (forall b, In b (bullets st') -> In b (bullets st)) ->
  bullets_safe st'.
Proof.
  intros Hsafe Hdecay Hsub b e' Hb He' Hx.
  destruct (Hdecay e' He') as (e & He & _ & Hex & _).
  apply (Hsafe b e); [apply Hsub; exact Hb|exact He|congruence].
Qed.

Lemma collides_false (b : Bullet) (e : Enemy) :
  collides b e = false -> enemy_x e = bullet_x b ->
  (inject_Z (enemy_y e) < bullet_y b)%Q.
Proof.
  unfold collides. intros H Hx. apply andb_false_iff in H. destruct H as [H|H].
  - apply Z.eqb_neq in H. contradiction.
  - apply Qnot_le_lt. intro Hle. apply Qle_bool_iff in Hle. congruence.
Qed.

Lemma collides_true (b : Bullet) (e : Enemy) :
  collides b e = true -> enemy_x e = bullet_x b.
Proof.
  unfold collides. intro H. apply andb_true_iff in H. destruct H as (H & _).
  apply Z.eqb_eq. exact H.
Qed.

(** A hit happens before the exit threshold. *)
Lemma bullets_safe_one_removal (b : Bullet) (st : GameState) :
  bullets_safe st -> In b (bullets st) ->
  Bullet_hits b st && Bullet_exits b = false.
Proof.
  intros Hsafe Hin. destruct (Bullet_hits b st) eqn:Eh; [|reflexivity]. simpl.
  apply Bullet_hits_find in Eh. destruct Eh as (e & Ef).
  apply find_some in Ef. destruct Ef as (He & Hc). apply collides_true in Hc.
  unfold Bullet_exits. apply Qltb_false. simpl.
  apply (Hsafe b e Hin He Hc).
Qed.

Section Bounds.

Hypothesis speed_bound : (BULLET_SPEED <= 10)%Q.
Hypothesis start_bound : (-10 <= SHIP_POSITION_Y - 1 - BULLET_SPEED)%Q.

Lemma Bullet_after_animate_safe (b : Bullet) (st : GameState) :
  wf st -> bullets_safe st -> In b (bullets st) ->
  bullets_safe (Bullet_after_animate b st).
Proof.
  intros Hwf Hsafe Hin.
  assert (Hshrink : forall st', enemies_decay st st' ->
            (forall c, In c (bullets st') -> In c (bullets st)) -> bullets_safe st')
    by (intros st'; apply bullets_safe_shrink; exact Hsafe).
  pose proof (Bullet_after_animate_decay b st) as Hdecay.
  unfold Bullet_after_animate in *. cbv zeta in *.
  destruct (find (collides (Bullet_moved b)) (enemies st)) as [e|] eqn:Ef.
  - apply Hshrink; [exact Hdecay|]. simpl. apply list_without_In.
  - destruct (Bullet_exits b) eqn:Ex.
    + apply Hshrink; [exact Hdecay|]. simpl. apply list_without_In.
    + intros c e Hc He Hx. simpl in Hc, He. apply list_store_In in Hc.
      destruct Hc as [(-> & _)|(Hc & _)]; [|apply (Hsafe c e Hc He Hx)].
      pose proof (find_none _ _ Ef e He) as Hmiss.
      apply collides_false in Hmiss; [|exact Hx].
      pose proof (wf_alive st Hwf) as Ha.
      eapply Forall_forall in Ha; [|exact He]. destruct Ha as (_ & Hy).
      assert (Hy' : (0 <= inject_Z (enemy_y e))%Q)
        by (change 0%Q with (inject_Z 0); rewrite <- Zle_Qle; exact Hy).
      simpl in *. lra.
Qed.

Lemma pass_call_safe (m : M unit) (st st' : GameState) :
  wf st -> bullets_safe st -> pass_call m st -> m st = Ok tt st' -> bullets_safe st'.
Proof.
  intros Hwf Hsafe Hcall H. destruct Hcall as [st|st|e st Hin|b st Hin|x st Hin].
  - destruct (Starfield_animate_eq st) as (sf & r & E). rewrite E in H.
    injection H as <-. exact Hsafe.
  - injection H as <-. exact Hsafe.
  - injection H as <-. exact Hsafe.
  - apply Bullet_animate_Ok in H; [|exact Hwf|exact Hin]. destruct H as (_ & ->).
    apply Bullet_after_animate_safe; assumption.
  - rewrite Explosion_animate_returns in H; [|apply Hwf|exact Hin].
    injection H as <-. unfold Explosion_after_animate.
    destruct (_ <=? _); exact Hsafe.
Qed.

Lemma run_safe (op : Op) (st st' : GameState) :
  wf st -> bullets_safe st -> run op st = Ok tt st' -> bullets_safe st'.
Proof.
  intros Hwf Hsafe H. destruct op as [x| |]; simpl in H.
  - injection H as <-. exact Hsafe.
  - rewrite GameState_shoot_eq in H. injection H as <-.
    intros b e Hb He Hx. simpl in Hb, He. apply in_app_or in Hb.
    destruct Hb as [Hb|[<-|[]]]; [apply (Hsafe b e Hb He Hx)|]. simpl. exact start_bound.
  - apply (GameState_animate_keeps (fun s => wf s /\ bullets_safe s))
      with (st := st); [|split; assumption|exact H].
    intros m s s' (Hs & Hb) Hc Hm. split.
    + eapply pass_call_wf; eassumption.
    + eapply pass_call_safe; eassumption.
Qed.

Lemma reachable_safe (st : GameState) : reachable st -> bullets_safe st.
Proof.
  induction 1 as [seed data st H|op st st' Hr IH H|m st st' Hr IH Hc H].
  - destruct (GameState_new_eq seed data) as (sf & r & E). rewrite E in H.
    injection H as <-. intros b e Hb. destruct Hb.
  - eapply run_safe; [apply reachable_wf; exact Hr|exact IH|exact H].
  - eapply pass_call_safe; [apply reachable_wf; exact Hr|exact IH|exact Hc|exact H].
Qed.

Lemma Bullet_after_animate_length (b : Bullet) (st : GameState) :
  (List.length (bullets (Bullet_after_animate b st)) <= List.length (bullets st))%nat.
Proof.
  assert (Hw : (List.length (list_without (is_bullet b) (bullets st))
                <= List.length (bullets st))%nat).
  { unfold list_without. destruct (list_remove _ _) as [r|] eqn:E; [|lia].
    apply list_remove_length in E. lia. }
  unfold Bullet_after_animate. cbv zeta.
  destruct (find _ _); [exact Hw|]. destruct (Bullet_exits b); [exact Hw|].
  simpl. rewrite list_store_length. lia.
Qed.

(** On the states of a run every pass returns. *)
Lemma GameState_animate_returns_safe (st : GameState) :
  wf st -> bullets_safe st ->
  exists st', GameState_animate st = Ok tt st' /\ wf st' /\ bullets_safe st'.
Proof.
  intros Hwf Hsafe.
  apply (GameState_animate_returns (fun s => wf s /\ bullets_safe s)); auto.
  - intros s sf r (Hs & Hb). split; [apply wf_set_starfield, wf_set_rand, Hs|exact Hb].
  - intros s sh (Hs & Hb). split; [apply wf_set_ship, Hs|exact Hb].
  - intros s c (Hs & Hb). split; [apply wf_set_calls, Hs|exact Hb].
  - intros b s (Hs & Hb) Hin. exists (Bullet_after_animate b s).
    split; [apply Bullet_animate_returns; auto using bullets_safe_one_removal|].
    split; [|apply Bullet_after_animate_length].
    split; [apply Bullet_after_animate_wf|apply Bullet_after_animate_safe]; assumption.
  - intros x s (Hs & Hb) Hin. exists (Explosion_after_animate x s).
    split; [apply Explosion_animate_returns; [apply Hs|exact Hin]|].
    split.
    + split; [apply Explosion_after_animate_wf, Hs|].
      unfold Explosion_after_animate. destruct (_ <=? _); exact Hb.
    + destruct (Explosion_animate_returns_any x s Hin) as (s' & E & _ & _ & Hl).
      rewrite Explosion_animate_returns in E; [|apply Hs|exact Hin].
      injection E as <-. exact Hl.
Qed.

(** C6: in every state of a run (the states inside a pass included), for
    every bullet of the collection, the hit test and the exit test of its
    [animate()] are never both true, the call returns, and a bullet that
    hits or leaves is removed by that very call, exactly once: the
    collection afterwards is the one before without it, and does not hold
    it any more; a bullet that does neither stays, moved. Every pass over
    such a state returns, so no second removal ever raises. *)
Theorem bullet_removed_once_in_its_step (st : GameState) :
  reachable st ->
  (exists st', GameState_animate st = Ok tt st') /\
  (forall b, In b (bullets st) ->
     Bullet_hits b st && Bullet_exits b = false /\
     exists st',
       Bullet_animate b st = Ok tt st' /\
       (Bullet_hits b st = true \/ Bullet_exits b = true ->
          list_remove (is_bullet b) (bullets st) = Some (bullets st') /\
          S (List.length (bullets st')) = List.length (bullets st) /\
          ~ In (bullet_id b) (map bullet_id (bullets st'))) /\
       (Bullet_hits b st = false -> Bullet_exits b = false ->
          bullets st' = list_store (is_bullet b) (Bullet_moved b) (bullets st) /\
          In (Bullet_moved b) (bullets st'))).
Proof.
  intro Hreach. pose proof (reachable_wf st Hreach) as Hwf.
  pose proof (reachable_safe st Hreach) as Hsafe. split.
  - destruct (GameState_animate_returns_safe st Hwf Hsafe) as (st' & E & _).
    exists st'. exact E.
  - intros b Hin. pose proof (bullets_safe_one_removal b st Hsafe Hin) as Hone.
    split; [exact Hone|]. exists (Bullet_after_animate b st).
    split; [apply Bullet_animate_returns; assumption|].
    pose proof (list_without_found (is_bullet b) b (bullets st) Hin (Nat.eqb_refl _))
      as Hrm.
    assert (Hgone : ~ In (bullet_id b)
                      (map bullet_id (list_without (is_bullet b) (bullets st)))).
    { intro Hid. apply in_map_iff in Hid. destruct Hid as (c & Hc & Hcin).
      pose proof (list_remove_gone bullet_id (is_bullet b) (bullet_id b)
                    (is_bullet_id b) _ _ (proj1 (wf_bullets st Hwf)) Hrm) as Hg.
      eapply Forall_forall in Hg; [|exact Hcin].
      apply (p_false bullet_id (is_bullet b) (bullet_id b) (is_bullet_id b)) in Hg.
      contradiction. }
    unfold Bullet_after_animate, Bullet_hits in *. cbv zeta.
    destruct (find (collides (Bullet_moved b)) (enemies st)) as [e|] eqn:Ef.
    + split.
      * intros _. simpl. split; [exact Hrm|]. split; [|exact Hgone].
        apply list_remove_length in Hrm. lia.
      * intros Hh. discriminate.
    + destruct (Bullet_exits b) eqn:Ex.
      * split; [|intros _ Hx; discriminate].
        intros _. simpl. split; [exact Hrm|]. split; [|exact Hgone].
        apply list_remove_length in Hrm. lia.
      * split; [intros [H|H]; discriminate|].
        intros _ _. simpl. split; [reflexivity|].
        eapply list_store_self; [exact Hin|apply Nat.eqb_refl].
Qed.

End Bounds.

End BulletSafety.

(** ** Who is animated in a pass *)

Lemma count_calls_app (c : Call) (l1 l2 : list Call) :
  count_calls c (l1 ++ l2) = (count_calls c l1 + count_calls c l2)%nat.
Proof. unfold count_calls. rewrite filter_app, length_app. reflexivity. Qed.

Lemma count_calls_map_same (K : nat -> Call) (ids : list nat) (k : nat) :
  (forall i j, Call_eqb (K i) (K j) = Nat.eqb i j) ->
  NoDup ids -> In k ids -> count_calls (K k) (map K ids) = 1%nat.
Proof.
  intros HK Hnd Hin. unfold count_calls.
  induction ids as [|i ids IH]; [contradiction|]. simpl. rewrite HK.
  inversion Hnd as [|? ? Hnotin Hnd']; subst.
  assert (Hzero : forall l, ~ In k l ->
            List.length (filter (Call_eqb (K k)) (map K l)) = 0%nat).
  { induction l as [|j l IHl]; intro Hn; [reflexivity|]. simpl. rewrite HK.
    destruct (Nat.eqb_spec k j) as [->|_]; [exfalso; apply Hn; left; reflexivity|].
    apply IHl. intro H. apply Hn. right. exact H. }
  destruct (Nat.eqb_spec k i) as [->|Hne].
  - simpl. rewrite Hzero by exact Hnotin. reflexivity.
  - destruct Hin as [->|Hin]; [contradiction|]. apply IH; assumption.
Qed.

Lemma count_calls_none (c : Call) (l : list Call) :
  Forall (fun d => Call_eqb c d = false) l -> count_calls c l = 0%nat.
Proof.
  unfold count_calls. induction 1 as [|d l Hd _ IH]; [reflexivity|].
  simpl. rewrite Hd. exact IH.
Qed.

Lemma calls_since_app (st st' : GameState) (l : list Call) :
  calls st' = calls st ++ l -> calls_since st st' = l.
Proof.
  intro H. unfold calls_since. rewrite H.
  rewrite skipn_app, Nat.sub_diag, skipn_all. reflexivity.
Qed.

Section PassCalls.

Context {constants : Constants}.

Lemma enemies_loop_from (l2 : list Enemy) :
  forall l1 fuel st,
    enemies st = l1 ++ l2 -> (List.length l2 <= fuel)%nat ->
    for_in_from enemies Enemy_animate fuel (List.length l1) st
    = Ok tt (set_calls (calls st ++ map EnemyAnimate (map enemy_id l2)) st).
Proof.
  induction l2 as [|e l2 IH]; intros l1 fuel st Hl Hfuel.
  - assert (Hn : nth_error (enemies st) (List.length l1) = None).
    { apply nth_error_None. rewrite Hl, length_app. simpl. lia. }
    destruct fuel; simpl; rewrite Hn, app_nil_r; destruct st; reflexivity.
  - assert (Hn : nth_error (enemies st) (List.length l1) = Some e).
    { rewrite Hl, nth_error_app2, Nat.sub_diag by lia. reflexivity. }
    destruct fuel as [|fuel]; [simpl in Hfuel; lia|]. simpl. rewrite Hn.
    unfold bind, Enemy_animate, log, modify.
    replace (S (List.length l1)) with (List.length (l1 ++ [e]))
      by (rewrite length_app; simpl; lia).
    rewrite IH; [|simpl; rewrite Hl, <- app_assoc; reflexivity|simpl in Hfuel; lia].
    unfold set_calls. simpl. rewrite <- app_assoc. reflexivity.
Qed.

(** The loop over the enemies calls each of them once, in order. *)
Lemma enemies_loop_eq (st : GameState) :
  for_in enemies Enemy_animate st
  = Ok tt (set_calls (calls st ++ map EnemyAnimate (map enemy_id (enemies st))) st).
Proof.
  unfold for_in. apply (enemies_loop_from (enemies st) []); [reflexivity|lia].
Qed.

Lemma Bullet_hits_false (b : Bullet) (st : GameState) :
  Bullet_hits b st = false -> find (collides (Bullet_moved b)) (enemies st) = None.
Proof. unfold Bullet_hits. destruct (find _ _); [discriminate|reflexivity]. Qed.

Lemma bullets_loop_from (st0 : GameState) (l2 : list Bullet) :
  forall l1 fuel st,
    bullets st = map Bullet_moved l1 ++ l2 ->
    enemies st = enemies st0 ->
    NoDup (map bullet_id (l1 ++ l2)) ->
    Forall (fun b => Bullet_hits b st0 = false /\ Bullet_exits b = false) l2 ->
    (List.length l2 <= fuel)%nat ->
    for_in_from bullets Bullet_animate fuel (List.length l1) st
    = Ok tt (set_bullets (map Bullet_moved (l1 ++ l2))
               (set_calls (calls st ++ map BulletAnimate (map bullet_id l2)) st)).
Proof.
  induction l2 as [|b l2 IH]; intros l1 fuel st Hl Hen Hnd Hq Hfuel.
  - assert (Hn : nth_error (bullets st) (List.length l1) = None).
    { apply nth_error_None. rewrite Hl, length_app, length_map. simpl. lia. }
    rewrite app_nil_r in *. 
    destruct fuel; simpl; rewrite Hn, app_nil_r, <- Hl; destruct st; reflexivity.
  - assert (Hn : nth_error (bullets st) (List.length l1) = Some b).
    { rewrite Hl, nth_error_app2, length_map, Nat.sub_diag by (rewrite length_map; lia).
      reflexivity. }
    destruct fuel as [|fuel]; [simpl in Hfuel; lia|]. simpl. rewrite Hn.
    inversion Hq as [|? ? (Hhit & Hexit) Hq']; subst.
    unfold bind. rewrite Bullet_animate_eq. cbv zeta.
    assert (Hfind : find (collides (Bullet_moved b)) (enemies st) = None).
    { rewrite Hen. apply Bullet_hits_false. exact Hhit. }
    rewrite Hfind. unfold Bullet_exit_check. rewrite Hexit. unfold ret.
    assert (Hstore : list_store (is_bullet b) (Bullet_moved b) (bullets st)
                     = map Bullet_moved (l1 ++ [b]) ++ l2).
    { rewrite Hl.
      rewrite (list_store_split bullet_id (is_bullet b) (bullet_id b) (is_bullet_id b));
        [rewrite map_app, <- app_assoc; reflexivity| |reflexivity].
      rewrite map_app, map_map. simpl. rewrite map_app in Hnd. exact Hnd. }
    replace (S (List.length l1)) with (List.length (l1 ++ [b]))
      by (rewrite length_app; simpl; lia).
    rewrite IH; [| |exact Hen| |exact Hq'|simpl in Hfuel; lia].
    + unfold set_bullets, set_calls. simpl. rewrite <- !app_assoc. reflexivity.
    + simpl. exact Hstore.
    + rewrite <- app_assoc. exact Hnd.
Qed.



End PassCalls.

Section PassCallsAnyOutcome.

Context {constants : Constants}.






Lemma run_all_reachable (ops : list Op) :
  forall st st', reachable st -> run_all ops st = Ok tt st' -> reachable st'.
Proof.
  induction ops as [|op ops IH]; intros st st' Hr H; simpl in H.
  - injection H as <-. exact Hr.
  - unfold bind in H. destruct (run op st) as [[] st1|e st1|st1] eqn:E; try discriminate.
    eapply IH; [|exact H]. eapply reachable_run; eassumption.
Qed.


End PassCallsAnyOutcome.

(** ** The fuel of the loops is enough *)

Section Fuel.

Context {constants : Constants}.

Lemma Enemy_take_damage_bullets (e : Enemy) (st : GameState) :
  match Enemy_take_damage e st with
  | Ok _ st' => bullets st' = bullets st
  | Raise _ _ => True
  | OutOfFuel _ => False
  end.
Proof.
  rewrite Enemy_take_damage_eq. cbv zeta.
  destruct (enemy_health e - 1 <=? 0); [|reflexivity].
  destruct (list_remove _ _); [reflexivity|exact I].
Qed.

Lemma Bullet_exit_check_length (b : Bullet) (st : GameState) :
  match Bullet_exit_check b st with
  | Ok _ st' => (List.length (bullets st') <= List.length (bullets st))%nat
  | Raise _ _ => True
  | OutOfFuel _ => False
  end.
Proof.
  unfold Bullet_exit_check, bullets_remove, ret. destruct (Bullet_exits b); [|lia].
  destruct (list_remove _ _) as [l|] eqn:E; [|exact I].
  simpl. apply list_remove_length in E. lia.
Qed.

Lemma Bullet_animate_length (b : Bullet) (st : GameState) :
  match Bullet_animate b st with
  | Ok _ st' => (List.length (bullets st') <= List.length (bullets st))%nat
  | Raise _ _ => True
  | OutOfFuel _ => False
  end.
Proof.
  rewrite Bullet_animate_eq. cbv zeta.
  destruct (find (collides (Bullet_moved b)) (enemies st)) as [e|].
  - match goal with |- context [Enemy_take_damage e ?s] =>
      pose proof (Enemy_take_damage_bullets e s) as Hb;
      destruct (Enemy_take_damage e s) as [[] st3|ex st3|st3]
    end; [|exact I|exact Hb].
    simpl in Hb.
    destruct (list_remove (is_bullet b) (bullets st3)) as [l|] eqn:E; [|exact I].
    apply list_remove_length in E.
    pose proof (Bullet_exit_check_length b (set_bullets l st3)) as Hx.
    destruct (Bullet_exit_check b (set_bullets l st3)) as [[] st4|ex st4|st4];
      simpl in *; try exact Hx.
    assert (Hlen : List.length (bullets st3) = List.length (bullets st))
      by (rewrite Hb; apply list_store_length).
    lia.
  - match goal with |- context [Bullet_exit_check b ?s] =>
      pose proof (Bullet_exit_check_length b s) as Hx;
      destruct (Bullet_exit_check b s) as [[] st4|ex st4|st4]
    end; simpl in *; try exact Hx.
    rewrite list_store_length in Hx. exact Hx.
Qed.

Lemma Explosion_animate_length (x : Explosion) (st : GameState) :
  match Explosion_animate x st with
  | Ok _ st' => (List.length (explosions st') <= List.length (explosions st))%nat
  | Raise _ _ => True
  | OutOfFuel _ => False
  end.
Proof.
  rewrite Explosion_animate_eq. cbv zeta.
  destruct (explosion_max_frames x <=? explosion_frame x + 1).
  - destruct (list_remove _ _) as [l|] eqn:E; [|exact I].
    simpl in *. apply list_remove_length in E. rewrite list_store_length in E. lia.
  - simpl. rewrite list_store_length. lia.
Qed.

(** On every state, a pass returns or raises: no loop runs out of fuel. *)
Lemma GameState_animate_fuel (st st' : GameState) :
  GameState_animate st <> OutOfFuel st'.
Proof.
  unfold GameState_animate, bind.
  destruct (Starfield_animate_eq st) as (sf & r & ->).
  unfold on_ship at 1, modify at 1. rewrite enemies_loop_eq.
  set (st3 := set_calls _ _).
  destruct (for_in bullets Bullet_animate st3) as [[] st4|e st4|st4] eqn:E4.
  - unfold for_in. apply for_in_from_fuel; [apply Explosion_animate_length|lia].
  - discriminate.
  - exfalso. unfold for_in in E4. revert E4.
    apply for_in_from_fuel; [apply Bullet_animate_length|lia].
Qed.

End Fuel.

(** ** Concrete runs *)

Lemma sample_new_reachable (levels : list (list Z)) :
  @reachable sample_constants (sample_new levels).
Proof.
  unfold sample_new.
  destruct (@GameState_new_eq sample_constants sample_seed (sample_grid levels))
    as (sf & r & E).
  apply (@reachable_new sample_constants sample_seed (sample_grid levels)).
  rewrite E. reflexivity.
Qed.




Lemma sample_shot_reachable :
  @reachable sample_constants (sample_after [[1]] [Shoot]).
Proof.
  apply (@run_all_reachable sample_constants [Shoot] (sample_new [[1]]));
    [apply sample_new_reachable|].
  vm_compute. reflexivity.
Qed.

(** The bullet theorem with the sample constants, one shot fired. *)
Lemma bullet_removed_once_witness :
  (@BULLET_SPEED sample_constants <= 10)%Q /\
  (-10 <= @SHIP_POSITION_Y sample_constants - 1 - @BULLET_SPEED sample_constants)%Q /\
  @reachable sample_constants (sample_after [[1]] [Shoot]) /\
  exists st',
    @GameState_animate sample_constants (sample_after [[1]] [Shoot]) = Ok tt st'.
Proof.
  assert (H1 : (@BULLET_SPEED sample_constants <= 10)%Q) by (vm_compute; discriminate).
  assert (H2 : (-10 <= @SHIP_POSITION_Y sample_constants - 1
                       - @BULLET_SPEED sample_constants)%Q)
    by (vm_compute; discriminate).
  split; [exact H1|]. split; [exact H2|]. split; [exact sample_shot_reachable|].
  exact (proj1 (@bullet_removed_once_in_its_step sample_constants H1 H2
                  (sample_after [[1]] [Shoot]) sample_shot_reachable)).
Defined.


(** ** The walk over the explosions *)

Lemma list_remove_at {A} (p : A -> bool) (l1 l2 : list A) (a : A) :
  Forall (fun b => p b = false) l1 -> p a = true ->
  list_remove p (l1 ++ a :: l2) = Some (l1 ++ l2).
Proof.
  intros H Ha. induction H as [|b l1 Hb _ IH]; simpl.
  - rewrite Ha. reflexivity.
  - rewrite Hb, IH. reflexivity.
Qed.

Lemma explosions_visited_incl (l : list Explosion) :
  forall x, In x (explosions_visited l) -> In x l.
Proof.
  assert (H : forall n l, (List.length l <= n)%nat ->
            forall x, In x (explosions_visited l) -> In x l).
  { induction n as [|n IH]; intros [|a l'] Hn x Hx; simpl in *; try contradiction; try lia.
    destruct Hx as [->|Hx]; [left; reflexivity|]. right.
    destruct (Explosion_ends a).
    - destruct l' as [|b l'']; [contradiction|]. right.
      apply IH; [simpl in Hn; lia|exact Hx].
    - apply IH; [lia|exact Hx]. }
  intros x. apply (H (List.length l)). lia.
Qed.

Lemma explosions_visited_NoDup (l : list Explosion) :
  NoDup (map explosion_id l) -> NoDup (map explosion_id (explosions_visited l)).
Proof.
  assert (H : forall n l, (List.length l <= n)%nat ->
            NoDup (map explosion_id l) ->
            NoDup (map explosion_id (explosions_visited l))).
  { induction n as [|n IH]; intros [|a l'] Hn Hnd; simpl in *; try constructor; try lia.
    - inversion Hnd as [|? ? Hnotin Hnd']; subst. intro Hin. apply Hnotin.
      apply in_map_iff in Hin. destruct Hin as (x & Hid & Hx).
      apply in_map_iff. exists x. split; [exact Hid|].
      destruct (Explosion_ends a).
      + destruct l' as [|b l'']; [contradiction|]. right.
        apply explosions_visited_incl. exact Hx.
      + apply explosions_visited_incl. exact Hx.
    - inversion Hnd as [|? ? Hnotin Hnd']; subst. destruct (Explosion_ends a).
      + destruct l' as [|b l'']; [constructor|]. simpl in Hnd'.
        inversion Hnd'; subst. apply IH; [simpl in Hn; lia|assumption].
      + apply IH; [lia|assumption]. }
  apply (H (List.length l)). lia.
Qed.

Section ExplosionWalk.

Context {constants : Constants}.

Lemma explosions_walk_from (fuel : nat) :
  forall l2 l1 st,
    explosions st = l1 ++ l2 ->
    NoDup (map explosion_id (l1 ++ l2)) ->
    (List.length l2 <= fuel)%nat ->
    for_in_from explosions Explosion_animate fuel (List.length l1) st
    = Ok tt (set_explosions (l1 ++ explosions_after l2)
               (set_calls
                  (calls st ++
                   map ExplosionAnimate (map explosion_id (explosions_visited l2)))
                  st)).
Proof.
  induction fuel as [|fuel IH]; intros l2 l1 st Hl Hnd Hfuel.
  - destruct l2; [|simpl in Hfuel; lia]. simpl.
    assert (Hn : nth_error (explosions st) (List.length l1) = None)
      by (apply nth_error_None; rewrite Hl, app_nil_r; lia).
    rewrite Hn, !app_nil_r, <- (app_nil_r l1), <- Hl. destruct st; reflexivity.
  - destruct l2 as [|x l2].
    + simpl.
      assert (Hn : nth_error (explosions st) (List.length l1) = None)
        by (apply nth_error_None; rewrite Hl, app_nil_r; lia).
      rewrite Hn, !app_nil_r, <- (app_nil_r l1), <- Hl. destruct st; reflexivity.
    + assert (Hn : nth_error (explosions st) (List.length l1) = Some x)
        by (rewrite Hl, nth_error_app2, Nat.sub_diag by lia; reflexivity).
      simpl for_in_from. rewrite Hn. unfold bind.
      rewrite Explosion_animate_eq. cbv zeta.
      assert (Hstore : list_store (is_explosion x) (Explosion_aged x) (explosions st)
                       = l1 ++ Explosion_aged x :: l2).
      { rewrite Hl. apply (list_store_split explosion_id (is_explosion x)
                             (explosion_id x) (is_explosion_id x));
          [exact Hnd|reflexivity]. }
      pose proof (NoDup_ids_others explosion_id (is_explosion x) (explosion_id x)
                    (is_explosion_id x) l1 l2 x Hnd eq_refl) as Hothers.
      apply Forall_app in Hothers. destruct Hothers as (Hl1 & _).
      simpl explosions_visited. simpl explosions_after.
      fold (Explosion_ends x). destruct (Explosion_ends x) eqn:Eend.
      * simpl explosions. rewrite Hstore.
        rewrite (list_remove_at (is_explosion x) l1 l2 (Explosion_aged x) Hl1)
          by apply Nat.eqb_refl.
        assert (Hnd' : NoDup (map explosion_id (l1 ++ l2))).
        { rewrite map_app in *. simpl in Hnd. apply NoDup_remove_1 in Hnd. exact Hnd. }
        destruct l2 as [|y l2].
        -- assert (Hnone : forall s, explosions s = l1 ++ [] ->
                      nth_error (explosions s) (S (List.length l1)) = None)
             by (intros s ->; apply nth_error_None; rewrite app_nil_r; lia).
           destruct fuel; unfold for_in_from; rewrite Hnone by reflexivity;
             reflexivity.
        -- replace (S (List.length l1)) with (List.length (l1 ++ [y]))
             by (rewrite length_app; simpl; lia).
           rewrite (IH l2 (l1 ++ [y]));
             [|simpl; rewrite <- app_assoc; reflexivity
              |rewrite <- app_assoc; exact Hnd'|simpl in Hfuel; lia].
           unfold set_explosions, set_calls. simpl. rewrite <- !app_assoc. reflexivity.
      * replace (S (List.length l1)) with (List.length (l1 ++ [Explosion_aged x]))
          by (rewrite length_app; simpl; lia).
        rewrite (IH l2 (l1 ++ [Explosion_aged x]));
          [|simpl; rewrite Hstore, <- app_assoc; reflexivity
           |rewrite <- app_assoc; rewrite map_app in *; exact Hnd
           |simpl in Hfuel; lia].
        unfold set_explosions, set_calls. simpl. rewrite <- !app_assoc. reflexivity.
Qed.

End ExplosionWalk.

Lemma NoDup_map_eq {A B} (f : A -> B) (l : list A) (a b : A) :
  NoDup (map f l) -> In a l -> In b l -> f a = f b -> a = b.
Proof.
  induction l as [|c l IH]; intros Hnd Ha Hb Hf; [contradiction|].
  simpl in Hnd. inversion Hnd as [|? ? Hnotin Hnd']; subst.
  destruct Ha as [->|Ha]; destruct Hb as [->|Hb]; auto.
  - exfalso. apply Hnotin. rewrite Hf. apply in_map. exact Hb.
  - exfalso. apply Hnotin. rewrite <- Hf. apply in_map. exact Ha.
Qed.

Lemma count_calls_map_absent (K : nat -> Call) (ids : list nat) (k : nat) :
  (forall i j, Call_eqb (K i) (K j) = Nat.eqb i j) ->
  ~ In k ids -> count_calls (K k) (map K ids) = 0%nat.
Proof.
  intros HK Hn. apply count_calls_none. apply Forall_forall.
  intros c Hc. apply in_map_iff in Hc. destruct Hc as (i & <- & Hi).
  rewrite HK. apply Nat.eqb_neq. intros ->. contradiction.
Qed.

Section ExplosionWalkPass.

Context {constants : Constants}.

(** X2: in a pass in which no bullet hits or leaves, the walk over the
    explosions calls [animate()] on the explosions of
    [explosions_visited], each once, and on no other: an explosion that
    follows one that ends in this pass is passed over, and is found in the
    collection afterwards as it was before; the explosions that end are
    gone and the other ones called are one frame older. *)
Theorem pass_walks_explosions (st : GameState) :
  reachable st ->
  Forall (fun b => Bullet_hits b st = false /\ Bullet_exits b = false) (bullets st) ->
  exists st',
    GameState_animate st = Ok tt st' /\
    explosions st' = explosions_after (explosions st) /\
    calls_since st st'
    = map EnemyAnimate (map enemy_id (enemies st)) ++
      map BulletAnimate (map bullet_id (bullets st)) ++
      map ExplosionAnimate (map explosion_id (explosions_visited (explosions st))) /\
    (forall x, In x (explosions st) ->
       (In x (explosions_visited (explosions st)) ->
        count_calls (ExplosionAnimate (explosion_id x)) (calls_since st st') = 1%nat) /\
       (~ In x (explosions_visited (explosions st)) ->
        count_calls (ExplosionAnimate (explosion_id x)) (calls_since st st') = 0%nat)).
Proof.
  intros Hreach Hqb. pose proof (reachable_wf st Hreach) as Hwf.
  unfold GameState_animate, bind.
  destruct (Starfield_animate_eq st) as (sf & r & ->).
  unfold on_ship at 1, modify at 1. rewrite enemies_loop_eq.
  unfold for_in at 1.
  rewrite (bullets_loop_from st (bullets st) []); simpl;
    [|reflexivity|reflexivity|apply Hwf|exact Hqb|lia].
  unfold for_in.
  rewrite (explosions_walk_from _ (explosions st) []); simpl;
    [|reflexivity|apply Hwf|lia].
  eexists. split; [reflexivity|]. simpl. split; [reflexivity|].
  assert (Hc : forall l,
            calls_since st
              (set_explosions l
                 (set_calls
                    (((calls st ++ map EnemyAnimate (map enemy_id (enemies st))) ++
                      map BulletAnimate (map bullet_id (bullets st))) ++
                     map ExplosionAnimate
                       (map explosion_id (explosions_visited (explosions st))))
                    (set_bullets (map Bullet_moved (bullets st))
                       (set_calls
                          ((calls st ++ map EnemyAnimate (map enemy_id (enemies st))) ++
                           map BulletAnimate (map bullet_id (bullets st)))
                          (set_calls
                             (calls st ++ map EnemyAnimate (map enemy_id (enemies st)))
                             (set_ship (Ship_animate (ship st))
                                (set_starfield sf (set_rand r st))))))))
            = map EnemyAnimate (map enemy_id (enemies st)) ++
              map BulletAnimate (map bullet_id (bullets st)) ++
              map ExplosionAnimate
                (map explosion_id (explosions_visited (explosions st)))).
  { intro l. apply calls_since_app. simpl. rewrite <- !app_assoc. reflexivity. }
  rewrite Hc. split; [reflexivity|].
  intros x Hx. rewrite !count_calls_app.
  rewrite (count_calls_none _ (map EnemyAnimate _));
    [|apply Forall_forall; intros c Hin; apply in_map_iff in Hin;
      destruct Hin as (i & <- & _); reflexivity].
  rewrite (count_calls_none _ (map BulletAnimate _));
    [|apply Forall_forall; intros c Hin; apply in_map_iff in Hin;
      destruct Hin as (i & <- & _); reflexivity].
  simpl. split.
  - intro Hv. apply count_calls_map_same; [reflexivity| |apply in_map; exact Hv].
    apply explosions_visited_NoDup. apply Hwf.
  - intro Hnv. apply count_calls_map_absent; [reflexivity|].
    intro Hin. apply in_map_iff in Hin. destruct Hin as (v & Hid & Hv).
    apply Hnv. assert (v = x) as <-; [|exact Hv].
    apply (NoDup_map_eq explosion_id (explosions st)); auto.
    + apply Hwf.
    + apply explosions_visited_incl. exact Hv.
Qed.

End ExplosionWalkPass.

(** ** The life of an explosion *)

Section ExplosionLife.

Context {constants : Constants}.

Lemma destruction_explosion_ok (e : Enemy) (id : nat) :
  explosion_ok (destruction_explosion e id).
Proof. unfold explosion_ok. simpl. lia. Qed.

Lemma impact_explosion_ok (b : Bullet) (id : nat) :
  explosion_ok (impact_explosion b id).
Proof. unfold explosion_ok. simpl. lia. Qed.

Lemma Enemy_after_damage_explosions_ok (e : Enemy) (st : GameState) :
  explosions_ok st -> explosions_ok (Enemy_after_damage e st).
Proof.
  unfold explosions_ok, Enemy_after_damage. intro H.
  destruct (enemy_health e - 1 <=? 0); simpl; [|exact H].
  apply Forall_app. split; [exact H|].
  constructor; [apply destruction_explosion_ok|constructor].
Qed.

Lemma Bullet_after_animate_explosions_ok (b : Bullet) (st : GameState) :
  explosions_ok st -> explosions_ok (Bullet_after_animate b st).
Proof.
  intro H. unfold Bullet_after_animate. cbv zeta.
  destruct (find (collides (Bullet_moved b)) (enemies st)) as [e|].
  - unfold explosions_ok. simpl.
    apply (Enemy_after_damage_explosions_ok e). unfold explosions_ok. simpl.
    apply Forall_app. split; [exact H|].
    constructor; [apply impact_explosion_ok|constructor].
  - destruct (Bullet_exits b); exact H.
Qed.

Lemma Explosion_after_animate_explosions_ok (x : Explosion) (st : GameState) :
  explosions_ok st -> In x (explosions st) ->
  explosions_ok (Explosion_after_animate x st).
Proof.
  unfold explosions_ok, Explosion_after_animate. intros H Hin. cbv zeta.
  destruct (Z.leb_spec (explosion_max_frames x) (explosion_frame x + 1)) as [Hend|Hlive];
    simpl.
  - apply Forall_forall. intros y Hy. apply list_without_In in Hy.
    eapply Forall_forall in H; eauto.
  - apply Forall_forall. intros y Hy. apply list_store_In in Hy.
    destruct Hy as [(-> & _)|(Hy & _)]; [|eapply Forall_forall in H; eauto].
    eapply Forall_forall in H; [|exact Hin]. destruct H as (Hf & Hm).
    unfold explosion_ok. simpl. split; [lia|exact Hm].
Qed.

Lemma pass_call_explosions_ok (m : M unit) (st st' : GameState) :
  wf st -> explosions_ok st -> pass_call m st -> m st = Ok tt st' ->
  explosions_ok st'.
Proof.
  intros Hwf Hok Hcall H. destruct Hcall as [st|st|e st Hin|b st Hin|x st Hin].
  - destruct (Starfield_animate_eq st) as (sf & r & E). rewrite E in H.
    injection H as <-. exact Hok.
  - injection H as <-. exact Hok.
  - injection H as <-. exact Hok.
  - apply Bullet_animate_Ok in H; [|exact Hwf|exact Hin]. destruct H as (_ & ->).
    apply Bullet_after_animate_explosions_ok. exact Hok.
  - rewrite Explosion_animate_returns in H; [|apply Hwf|exact Hin].
    injection H as <-. apply Explosion_after_animate_explosions_ok; assumption.
Qed.

Lemma reachable_explosions_ok (st : GameState) : reachable st -> explosions_ok st.
Proof.
  induction 1 as [seed data st H|op st st' Hr IH H|m st st' Hr IH Hc H].
  - destruct (GameState_new_eq seed data) as (sf & r & E). rewrite E in H.
    injection H as <-. constructor.
  - destruct op as [x| |]; simpl in H.
    + injection H as <-. exact IH.
    + rewrite GameState_shoot_eq in H. injection H as <-. exact IH.
    + apply (GameState_animate_keeps (fun s => wf s /\ explosions_ok s))
        with (st := st); [|split; [apply reachable_wf; exact Hr|exact IH]|exact H].
      intros m s s' (Hs & Ho) Hc Hm. split.
      * eapply pass_call_wf; eassumption.
      * eapply pass_call_explosions_ok; eassumption.
  - eapply pass_call_explosions_ok; [apply reachable_wf; exact Hr|exact IH|exact Hc|exact H].
Qed.

(** X1: in every state of a run, every explosion of the collection has a
    frame from 0 to below its last frame, which is 6 for a "small"
    explosion and 10 for any other; its [animate()] returns, and removes
    it from the collection exactly when the frame it reaches is the last
    one, and otherwise leaves it there one frame older. So an explosion is
    removed by its own 6th (or 10th) [animate()], not before and not
    after. *)
Theorem explosion_lives_its_frames (st : GameState) :
  reachable st ->
  forall x, In x (explosions st) ->
    0 <= explosion_frame x < explosion_max_frames x /\
    explosion_max_frames x
    = (if String.eqb (explosion_size x) "small" then 6 else 10) /\
    exists st',
      Explosion_animate x st = Ok tt st' /\
      (explosion_frame x + 1 = explosion_max_frames x ->
       ~ In (explosion_id x) (map explosion_id (explosions st')) /\
       S (List.length (explosions st')) = List.length (explosions st)) /\
      (explosion_frame x + 1 < explosion_max_frames x ->
       In (Explosion_aged x) (explosions st') /\
       List.length (explosions st') = List.length (explosions st)).
Proof.
  intros Hreach x Hx. pose proof (reachable_wf st Hreach) as Hwf.
  pose proof (reachable_explosions_ok st Hreach) as Hok.
  eapply Forall_forall in Hok; [|exact Hx]. destruct Hok as (Hf & Hm).
  split; [exact Hf|]. split; [exact Hm|].
  exists (Explosion_after_animate x st).
  split; [apply Explosion_animate_returns; [apply Hwf|exact Hx]|].
  unfold Explosion_after_animate. cbv zeta.
  destruct (Z.leb_spec (explosion_max_frames x) (explosion_frame x + 1)) as [Hend|Hlive];
    simpl; split.
  - intros _.
    pose proof (list_without_found (is_explosion x) x (explosions st) Hx
                  (Nat.eqb_refl _)) as Hrm.
    split; [|apply list_remove_length in Hrm; lia].
    intro Hid. apply in_map_iff in Hid. destruct Hid as (y & Hy & Hyin).
    pose proof (list_remove_gone explosion_id (is_explosion x) (explosion_id x)
                  (is_explosion_id x) _ _ (proj1 (wf_explosions st Hwf)) Hrm) as Hg.
    eapply Forall_forall in Hg; [|exact Hyin].
    apply (p_false explosion_id (is_explosion x) (explosion_id x) (is_explosion_id x)) in Hg.
    contradiction.
  - intro. lia.
  - intro. lia.
  - intros _. split; [|apply list_store_length].
    eapply list_store_self; [exact Hx|apply Nat.eqb_refl].
Qed.

End ExplosionLife.

(** ** A hit *)

Section Hit.

Context {constants : Constants}.

Lemma Enemy_after_damage_explosions (e : Enemy) (st : GameState) :
  explosions (Enemy_after_damage e st)
  = explosions st ++
    (if enemy_health e - 1 <=? 0 then [destruction_explosion e (next_id st)] else []).
Proof.
  unfold Enemy_after_damage. destruct (enemy_health e - 1 <=? 0); simpl;
    [reflexivity|rewrite app_nil_r; reflexivity].
Qed.

Lemma Enemy_after_damage_ship (e : Enemy) (st : GameState) :
  ship (Enemy_after_damage e st) = ship st.
Proof. unfold Enemy_after_damage. destruct (_ <=? _); reflexivity. Qed.

(** X3: in every state of a run, when the moved bullet meets an enemy
    (the first of the collection in its column at or below its row) and is
    not past the exit threshold, [Bullet.animate] returns and has, in this
    order, appended one "small" explosion at the bullet's column and new
    row, taken one health from that enemy, which stays with the lower
    health or, when that was its last, leaves behind a "large" explosion
    at its cell, appended after the small one; the bullet is gone from its
    collection, the other enemies and the ship are as they were. *)
Theorem hit_damages_enemy_and_spawns_explosions (st : GameState) (b : Bullet) (e : Enemy) :
  reachable st -> In b (bullets st) ->
  find (collides (Bullet_moved b)) (enemies st) = Some e ->
  Bullet_exits b = false ->
  exists st',
    Bullet_animate b st = Ok tt st' /\
    In e (enemies st) /\ enemy_x e = bullet_x b /\
    (inject_Z (enemy_y e) >= bullet_y b - BULLET_SPEED)%Q /\
    explosions st'
    = explosions st ++ impact_explosion b (next_id st) ::
      (if enemy_health e =? 1
       then [destruction_explosion e (S (next_id st))] else []) /\
    (forall e', In e' (enemies st') <->
       (e' = Enemy_damaged e /\ 1 < enemy_health e) \/
       (In e' (enemies st) /\ enemy_id e' <> enemy_id e)) /\
    ~ In (bullet_id b) (map bullet_id (bullets st')) /\
    S (List.length (bullets st')) = List.length (bullets st) /\
    ship st' = ship st.
Proof.
  intros Hreach Hb Hfind Hexit. pose proof (reachable_wf st Hreach) as Hwf.
  pose proof (find_some _ _ Hfind) as (He & Hc).
  assert (Hhealth : 1 <= enemy_health e).
  { pose proof (wf_alive st Hwf) as Ha. eapply Forall_forall in Ha; [|exact He].
    apply Ha. }
  exists (Bullet_after_animate b st). split.
  { apply Bullet_animate_returns; [exact Hwf|exact Hb|]. rewrite Hexit.
    apply andb_false_r. }
  split; [exact He|]. split; [apply collides_true in Hc; exact Hc|].
  split.
  { unfold collides in Hc. apply andb_true_iff in Hc. destruct Hc as (_ & Hy).
    apply Qle_bool_iff in Hy. exact Hy. }
  pose proof (list_without_found (is_bullet b) b (bullets st) Hb (Nat.eqb_refl _)) as Hrm.
  unfold Bullet_after_animate. cbv zeta. rewrite Hfind. simpl.
  split; [|split; [|split; [|split]]].
  - rewrite Enemy_after_damage_explosions. simpl. rewrite <- app_assoc. simpl.
    destruct (Z.leb_spec (enemy_health e - 1) 0), (Z.eqb_spec (enemy_health e) 1);
      try lia; reflexivity.
  - intro e'.
    match goal with |- In e' (enemies (Enemy_after_damage e ?s)) <-> _ =>
      pose proof (Enemy_after_damage_members e s) as Hm end.
    simpl in Hm. rewrite Hm; [|constructor; simpl; try apply Hwf|exact He].
    + split; (intros [(-> & H)|H]; [left; split; [reflexivity|lia]|right; exact H]).
    + eapply ids_ok_weaken; [apply Hwf|lia].
    + apply (list_store_ids_ok bullet_id (is_bullet b) (bullet_id b) (is_bullet_id b));
        [eapply ids_ok_weaken; [apply Hwf|lia]|reflexivity].
    + apply ids_ok_append; [apply Hwf|reflexivity].
  - intro Hid. apply in_map_iff in Hid. destruct Hid as (c & Hcid & Hcin).
    pose proof (list_remove_gone bullet_id (is_bullet b) (bullet_id b)
                  (is_bullet_id b) _ _ (proj1 (wf_bullets st Hwf)) Hrm) as Hg.
    eapply Forall_forall in Hg; [|exact Hcin].
    apply (p_false bullet_id (is_bullet b) (bullet_id b) (is_bullet_id b)) in Hg.
    contradiction.
  - apply list_remove_length in Hrm. lia.
  - rewrite Enemy_after_damage_ship. reflexivity.
Qed.

(** X4: the two removals of [Bullet.animate] are not exclusive. In every
    state of a run, a bullet whose move both meets an enemy and takes it
    past the exit threshold makes [animate()] raise [ValueError] at the
    second [remove]: by then the explosion is appended, the enemy damaged
    and the bullet out of the collection. *)
Theorem hit_past_exit_raises (st : GameState) (b : Bullet) (e : Enemy) :
  reachable st -> In b (bullets st) ->
  find (collides (Bullet_moved b)) (enemies st) = Some e ->
  Bullet_exits b = true ->
  exists st',
    Bullet_animate b st = Raise ValueError st' /\
    ~ In (bullet_id b) (map bullet_id (bullets st')) /\
    In (impact_explosion b (next_id st)) (explosions st') /\
    (forall e', In e' (enemies st') -> enemy_id e' = enemy_id e ->
       enemy_health e' = enemy_health e - 1).
Proof.
  intros Hreach Hb Hfind Hexit. pose proof (reachable_wf st Hreach) as Hwf.
  pose proof (find_some _ _ Hfind) as (He & Hc).
  pose proof (list_without_found (is_bullet b) b (bullets st) Hb (Nat.eqb_refl _)) as Hrm.
  pose proof (list_remove_gone bullet_id (is_bullet b) (bullet_id b)
                (is_bullet_id b) _ _ (proj1 (wf_bullets st Hwf)) Hrm) as Hgone.
  rewrite Bullet_animate_eq. cbv zeta. rewrite Hfind.
  rewrite Enemy_take_damage_returns; [|apply Hwf|exact He].
  rewrite Enemy_after_damage_bullets. simpl.
  rewrite (list_without_store bullet_id (is_bullet b) (bullet_id b) _ b);
    auto using is_bullet_id; [|apply Hwf|apply Nat.eqb_refl].
  unfold Bullet_exit_check. rewrite Hexit. unfold bullets_remove. simpl.
  rewrite list_remove_missing by exact Hgone.
  eexists. split; [reflexivity|]. simpl. split; [|split].
  - intro Hid. apply in_map_iff in Hid. destruct Hid as (c & Hcid & Hcin).
    eapply Forall_forall in Hgone; [|exact Hcin].
    apply (p_false bullet_id (is_bullet b) (bullet_id b) (is_bullet_id b)) in Hgone.
    contradiction.
  - rewrite Enemy_after_damage_explosions. simpl.
    apply in_or_app. left. apply in_or_app. right. left. reflexivity.
  - intros e' He' Hid.
    match type of He' with In e' (enemies (Enemy_after_damage e ?s)) =>
      pose proof (Enemy_after_damage_members e s) as Hm end.
    simpl in Hm. apply Hm in He'; [| |exact He].
    + destruct He' as [(-> & _)|(_ & Hne)]; [reflexivity|contradiction].
    + constructor; simpl; try apply Hwf.
      * eapply ids_ok_weaken; [apply Hwf|lia].
      * apply (list_store_ids_ok bullet_id (is_bullet b) (bullet_id b) (is_bullet_id b));
          [eapply ids_ok_weaken; [apply Hwf|lia]|reflexivity].
      * apply ids_ok_append; [apply Hwf|reflexivity].
Qed.

(** X5: the collision test takes the first enemy of the collection, not
    the nearest; yet for a bullet that moves at most one row per step and
    is still below every enemy of its column, the enemy it meets is the
    lowest of the column, the one nearest to the ship; and when it meets
    none, it is still below every enemy of its column after the move. *)
Theorem first_match_is_lowest_enemy (st : GameState) (b : Bullet) :
  (BULLET_SPEED <= 1)%Q ->
  (forall e, In e (enemies st) -> enemy_x e = bullet_x b ->
     (inject_Z (enemy_y e) < bullet_y b)%Q) ->
  (forall e, find (collides (Bullet_moved b)) (enemies st) = Some e ->
     forall e', In e' (enemies st) -> enemy_x e' = bullet_x b ->
       enemy_y e' <= enemy_y e) /\
  (find (collides (Bullet_moved b)) (enemies st) = None ->
   forall e, In e (enemies st) -> enemy_x e = bullet_x (Bullet_moved b) ->
     (inject_Z (enemy_y e) < bullet_y (Bullet_moved b))%Q).
Proof.
  intros Hspeed Hbelow. split.
  - intros e Hfind e' He' Hx'.
    pose proof (find_some _ _ Hfind) as (He & Hc).
    unfold collides in Hc. apply andb_true_iff in Hc. destruct Hc as (Hx & Hy).
    apply Qle_bool_iff in Hy. simpl in Hy.
    pose proof (Hbelow e' He' Hx') as Hlow.
    destruct (Z_le_gt_dec (enemy_y e') (enemy_y e)) as [Hle|Hgt]; [exact Hle|].
    exfalso. assert (Hz : (inject_Z (enemy_y e) + 1 <= inject_Z (enemy_y e'))%Q).
    { change 1%Q with (inject_Z 1). rewrite <- inject_Z_plus, <- Zle_Qle. lia. }
    lra.
  - intros Hnone e He Hx. pose proof (find_none _ _ Hnone e He) as Hmiss.
    apply collides_false in Hmiss; [exact Hmiss|exact Hx].
Qed.

End Hit.

(** ** The ship, step by step *)

Section ShipSteps.

Context {constants : Constants}.

Lemma Ship_animate_cooldown (s : Ship) :
  ship_shoot_cooldown (Ship_animate s)
  = if 0 <? ship_shoot_cooldown s then ship_shoot_cooldown s - 1
    else ship_shoot_cooldown s.
Proof. reflexivity. Qed.

(** X6: [n] steps of [Ship.animate] take [n] off a positive cooldown and
    stop at 0; a cooldown of 0 or below is left as it is. So after a shot
    the ship can shoot again exactly from the step that uses up the
    cooldown, and a ship with a negative cooldown never can. *)
Theorem cooldown_counts_down (s : Ship) (n : nat) :
  ship_shoot_cooldown (Ship_animate_n n s)
  = (if ship_shoot_cooldown s <? 0 then ship_shoot_cooldown s
     else Z.max 0 (ship_shoot_cooldown s - Z.of_nat n)) /\
  (Ship_can_shoot (Ship_animate_n n s) = true <->
   0 <= ship_shoot_cooldown s <= Z.of_nat n).
Proof.
  assert (H : forall n s, ship_shoot_cooldown (Ship_animate_n n s)
            = (if ship_shoot_cooldown s <? 0 then ship_shoot_cooldown s
               else Z.max 0 (ship_shoot_cooldown s - Z.of_nat n))).
  { clear. induction n as [|n IH]; intro s.
    - simpl. destruct (Z.ltb_spec (ship_shoot_cooldown s) 0); lia.
    - change (Ship_animate_n (S n) s) with (Ship_animate_n n (Ship_animate s)).
      rewrite IH, Ship_animate_cooldown.
      destruct (Z.ltb_spec 0 (ship_shoot_cooldown s));
        destruct (Z.ltb_spec (ship_shoot_cooldown s) 0);
        try destruct (Z.ltb_spec (ship_shoot_cooldown s - 1) 0); lia. }
  split; [apply H|]. unfold Ship_can_shoot. rewrite H, Z.eqb_eq.
  destruct (Z.ltb_spec (ship_shoot_cooldown s) 0); lia.
Qed.

Section Travel.

Hypothesis speed_positive : (0 < SHIP_SPEED)%Q.



End Travel.

(** Entity-level calls on the members of the collections leave the ship
    alone, however they end. *)
Lemma Bullet_animate_ship (b : Bullet) (st : GameState) :
  ship (final_state (Bullet_animate b st)) = ship st.
Proof.
  rewrite Bullet_animate_eq. cbv zeta.
  assert (Hx : forall s, ship (final_state (Bullet_exit_check b s)) = ship s).
  { intro s. unfold Bullet_exit_check, bullets_remove, ret.
    destruct (Bullet_exits b); [|reflexivity]. destruct (list_remove _ _); reflexivity. }
  destruct (find (collides (Bullet_moved b)) (enemies st)) as [e|];
    [|rewrite Hx; reflexivity].
  rewrite Enemy_take_damage_eq. cbv zeta.
  destruct (enemy_health e - 1 <=? 0).
  - destruct (list_remove (is_enemy e) _); [|reflexivity]. simpl.
    destruct (list_remove (is_bullet b) _); [|reflexivity]. rewrite Hx. reflexivity.
  - simpl. destruct (list_remove (is_bullet b) _); [|reflexivity].
    rewrite Hx. reflexivity.
Qed.

Lemma Explosion_animate_ship (x : Explosion) (st : GameState) :
  ship (final_state (Explosion_animate x st)) = ship st.
Proof.
  rewrite Explosion_animate_eq. cbv zeta.
  destruct (explosion_max_frames x <=? explosion_frame x + 1); [|reflexivity].
  destruct (list_remove _ _); reflexivity.
Qed.

(** X8: whatever a pass does to the collections and however it ends, it
    has advanced the ship by exactly one [Ship.animate] step: no enemy,
    bullet or explosion touches the ship, and the target column is the one
    last given to [move_to]. *)
Theorem pass_steps_the_ship_once (st : GameState) :
  ship (final_state (GameState_animate st)) = Ship_animate (ship st) /\
  ship_target_x (ship (final_state (GameState_animate st))) = ship_target_x (ship st).
Proof.
  assert (H : ship (final_state (GameState_animate st)) = Ship_animate (ship st)).
  { unfold GameState_animate, bind.
    destruct (Starfield_animate_eq st) as (sf & r & ->).
    unfold on_ship at 1, modify at 1. rewrite enemies_loop_eq.
    set (st3 := set_calls _ _).
    set (I := fun s : GameState => ship s = Ship_animate (ship st)).
    assert (H3 : I st3) by reflexivity.
    assert (H4 : I (final_state (for_in bullets Bullet_animate st3))).
    { unfold for_in. apply for_in_from_final; [|exact H3].
      intros b s Hs _. unfold I. rewrite Bullet_animate_ship. exact Hs. }
    destruct (for_in bullets Bullet_animate st3) as [[] st4|e st4|st4]; simpl in H4;
      try exact H4.
    unfold for_in. apply (for_in_from_final explosions Explosion_animate I); [|exact H4].
    intros x s Hs _. unfold I. rewrite Explosion_animate_ship. exact Hs. }
  split; [exact H|]. rewrite H. reflexivity.
Qed.

End ShipSteps.

(** ** The star field *)

Lemma uniform_range (a b u : Q) :
  (a <= b -> 0 <= u -> u < 1 -> a <= a + (b - a) * u /\ a + (b - a) * u <= b)%Q.
Proof.
  intros Hab Hu0 Hu1.
  assert (H0 : (0 <= (b - a) * u)%Q) by (apply Qmult_le_0_compat; lra).
  assert (H1 : ((b - a) * u <= (b - a) * 1)%Q).
  { rewrite (Qmult_comm (b - a) u), (Qmult_comm (b - a) 1).
    apply Qmult_le_compat_r; lra. }
  split; lra.
Qed.

Lemma choice_size (n : nat) : nth n [1; 1; 1; 2] 1 = 1 \/ nth n [1; 1; 1; 2] 1 = 2.
Proof. do 5 (destruct n as [|n]; simpl; auto). Qed.

Section Stars.

Context {constants : Constants}.

Section Band.

Hypothesis weeks_bound : -4 <= NUM_WEEKS.
Hypothesis rows_bound : (-6 <= SHIP_POSITION_Y)%Q.

Lemma NUM_WEEKS_band : (-2 <= inject_Z NUM_WEEKS + 2)%Q.
Proof.
  assert (H : (inject_Z (-4) <= inject_Z NUM_WEEKS)%Q) by (rewrite <- Zle_Qle; exact weeks_bound).
  change (inject_Z (-4)) with (-4)%Q in H. lra.
Qed.

Lemma new_star_ok (u1 u2 u3 : Q) (k : nat) :
  (0 <= u1 /\ u1 < 1)%Q -> (0 <= u2 /\ u2 < 1)%Q -> (0 <= u3 /\ u3 < 1)%Q ->
  star_ok
    {| star_x := -2 + (inject_Z NUM_WEEKS + 2 - -2) * u1;
       star_y := -2 + (SHIP_POSITION_Y + 4 - -2) * u2;
       star_brightness := (2 # 10) + (1 - (2 # 10)) * u3;
       star_size := nth k [1; 1; 1; 2] 1;
       star_speed := (2 # 100) + ((2 # 10) + (1 - (2 # 10)) * u3) * (3 # 100) |}.
Proof.
  intros (H1 & H1') (H2 & H2') (H3 & H3'). unfold star_ok. simpl.
  pose proof NUM_WEEKS_band as Hw.
  destruct (uniform_range (-2) (inject_Z NUM_WEEKS + 2) u1 Hw H1 H1') as (Ha & Hb).
  assert (Hr : (-2 <= SHIP_POSITION_Y + 4)%Q) by lra.
  destruct (uniform_range (-2) (SHIP_POSITION_Y + 4) u2 Hr H2 H2') as (Hc & Hd).
  assert (Hbr : ((2 # 10) <= 1)%Q) by (unfold Qle; simpl; lia).
  destruct (uniform_range (2 # 10) 1 u3 Hbr H3 H3') as (He & Hf).
  split; [|apply choice_size].
  repeat split; try assumption.
Qed.

End Band.

(** The body of the loop of [Starfield.__init__] appends one star, drawn
    from the next four draws. *)
Lemma for_range_new_stars (n : nat) :
  forall stars self, exists new r,
    for_range n
      (fun stars =>
         x <- random_uniform (-2) (inject_Z NUM_WEEKS + 2) ;;
         y <- random_uniform (-2) (SHIP_POSITION_Y + 4) ;;
         brightness <- random_uniform (2 # 10) 1 ;;
         size <- random_choice 1 [1; 1; 1; 2] ;;
         let speed := ((2 # 100) + brightness * (3 # 100))%Q in
         ret (stars ++
              [{| star_x := x; star_y := y; star_brightness := brightness;
                  star_size := size; star_speed := speed |}]))
      stars self
    = Ok (stars ++ new) (set_object_rand r self) /\
    List.length new = n /\
    random_draws r = random_draws (object_rand self) /\
    (-4 <= NUM_WEEKS -> (-6 <= SHIP_POSITION_Y)%Q ->
     unit_draws (random_draws (object_rand self)) -> Forall star_ok new).
Proof.
  induction n as [|n IH]; intros stars self.
  - exists [], (object_rand self). simpl. unfold ret. rewrite app_nil_r.
    split; [destruct self; reflexivity|]. repeat split. intros. constructor.
  - simpl for_range. unfold bind at 1.
    unfold random_uniform, random_random, random_choice, bind, ret. simpl.
    match goal with |- context [for_range n ?body ?a ?s] =>
      destruct (IH a s) as (new & r & E & Hlen & Hdraws & Hok) end.
    eexists (_ :: new), r.
    split; [|split; [|split]].
    + etransitivity; [exact E|]. unfold set_object_rand. simpl.
      rewrite <- app_assoc. reflexivity.
    + simpl. rewrite Hlen. reflexivity.
    + rewrite Hdraws. reflexivity.
    + intros Hw Hr Hu. constructor; [|apply Hok; assumption].
      apply new_star_ok; auto.
Qed.

Lemma Starfield_init_stars (self : Object) :
  exists sf r,
    Starfield_init self = Ok sf (set_object_rand r self) /\
    List.length sf = 100%nat /\
    random_draws r = random_draws (object_rand self) /\
    (-4 <= NUM_WEEKS -> (-6 <= SHIP_POSITION_Y)%Q ->
     unit_draws (random_draws (object_rand self)) -> Forall star_ok sf).
Proof.
  unfold Starfield_init.
  destruct (for_range_new_stars 100 [] self) as (new & r & E & Hlen & Hdraws & Hok).
  cbv zeta in E. exists new, r. split; [exact E|]. auto.
Qed.

Lemma GameState_new_stars (seed : nat -> Q) (data : ContributionData) :
  exists st,
    GameState_new seed data = Ok tt st /\
    List.length (starfield st) = 100%nat /\
    random_draws (rand st) = seed /\
    (-4 <= NUM_WEEKS -> (-6 <= SHIP_POSITION_Y)%Q -> unit_draws seed ->
     Forall star_ok (starfield st)).
Proof.
  unfold GameState_new, GameState_init. unfold bind at 1.
  destruct (Starfield_init_stars (Object_new seed))
    as (sf & r & E & Hlen & Hdraws & Hok).
  rewrite E. unfold bind, modify.
  rewrite (GameState__initialize_enemies_eq data _ []) by reflexivity.
  eexists. split; [reflexivity|]. simpl. repeat split; assumption.
Qed.

(** X9: [Starfield.__init__] makes exactly 100 stars; and when the random
    draws lie in [0, 1) and the band is not empty, every star is inside
    the band: its column from -2 to [NUM_WEEKS + 2], its row from -2 to
    [SHIP_POSITION_Y + 4], its brightness from 0.2 to 1, its size 1 or 2
    and its speed 0.02 + 0.03 * brightness. *)
Theorem starfield_starts_with_100_stars (seed : nat -> Q) (data : ContributionData) :
  exists st,
    GameState_new seed data = Ok tt st /\
    List.length (starfield st) = 100%nat /\
    random_draws (rand st) = seed /\
    (-4 <= NUM_WEEKS -> (-6 <= SHIP_POSITION_Y)%Q -> unit_draws seed ->
     Forall star_ok (starfield st)).
Proof.
  destruct (GameState_new_stars seed data) as (st & E & Hlen & Hdraws & Hok).
  exists st. split; [exact E|]. split; [exact Hlen|]. split; [exact Hdraws|].
  intros Hw Hr Hu. apply Hok; assumption.
Qed.

End Stars.

Section StarSteps.

Context {constants : Constants}.

Lemma Star_animate_stepped (s : Star) (st : GameState) :
  exists s' r,
    Star_animate s st = Ok s' (set_rand r st) /\
    random_draws r = random_draws (rand st) /\
    Star_stepped s s' /\
    (-4 <= NUM_WEEKS -> (-6 <= SHIP_POSITION_Y)%Q ->
     unit_draws (random_draws (rand st)) -> star_ok s -> star_ok s').
Proof.
  unfold Star_animate.
  destruct (Qltb (SHIP_POSITION_Y + 4) (star_y s + star_speed s)) eqn:E.
  - apply Qltb_true in E. eexists _, _. split; [reflexivity|]. simpl.
    split; [reflexivity|]. split.
    + unfold Star_stepped. simpl. repeat split. right. split; [exact E|reflexivity].
    + intros Hw Hr Hu ((Hx1 & Hx2 & Hy1 & Hy2 & Hb1 & Hb2 & Hs) & Hsize).
      destruct (Hu (random_cursor (rand st))) as (Hu0 & Hu1).
      destruct (uniform_range (-2) (inject_Z NUM_WEEKS + 2) _
                  (NUM_WEEKS_band Hw) Hu0 Hu1) as (Ha & Hb).
      unfold star_ok. simpl. split; [|exact Hsize].
      repeat split; try assumption; lra.
  - apply Qltb_false in E. eexists _, (rand st). unfold ret.
    split; [destruct st; reflexivity|]. split; [reflexivity|]. split.
    + unfold Star_stepped. simpl. repeat split. left. repeat split. exact E.
    + intros Hw Hr Hu ((Hx1 & Hx2 & Hy1 & Hy2 & Hb1 & Hb2 & Hs) & Hsize).
      unfold star_ok. simpl. split; [|exact Hsize].
      repeat split; try assumption. rewrite Hs. lra.
Qed.

Lemma for_each_update_stepped (l : list Star) :
  forall st, exists l' r,
    for_each_update Star_animate l st = Ok l' (set_rand r st) /\
    random_draws r = random_draws (rand st) /\
    Forall2 Star_stepped l l' /\
    (-4 <= NUM_WEEKS -> (-6 <= SHIP_POSITION_Y)%Q ->
     unit_draws (random_draws (rand st)) -> Forall star_ok l -> Forall star_ok l').
Proof.
  induction l as [|s l IH]; intro st; simpl.
  - exists [], (rand st). unfold ret. split; [destruct st; reflexivity|].
    repeat split; auto.
  - unfold bind. destruct (Star_animate_stepped s st) as (s' & r1 & -> & Hd1 & Hs & Hok).
    destruct (IH (set_rand r1 st)) as (l' & r2 & -> & Hd2 & Hl & Hokl).
    exists (s' :: l'), r2. split; [reflexivity|]. simpl in Hd2.
    split; [congruence|]. split; [constructor; assumption|].
    intros Hw Hr Hu Hall. inversion Hall; subst.
    constructor; [apply Hok; assumption|].
    apply Hokl; try assumption. simpl. rewrite Hd1. exact Hu.
Qed.

Lemma Star_stepped_below (s s' : Star) :
  (-6 <= SHIP_POSITION_Y)%Q -> Star_stepped s s' ->
  (star_y s' <= SHIP_POSITION_Y + 4)%Q.
Proof.
  intros Hr (_ & _ & _ & [(H & -> & _)|(_ & ->)]); [exact H|lra].
Qed.

(** X10: [Starfield.animate] always returns and touches nothing but the
    stars and the random state. Star by star, in order: brightness, size
    and speed stay; the star falls by its speed, keeping its column, or,
    when that would take it below row [SHIP_POSITION_Y + 4], is put back on
    row -2. So no star is ever left below the bottom of the band, and (for
    draws in [0, 1)) stars inside the band stay inside it. *)
Theorem starfield_animate_steps_each_star (st : GameState) :
  exists st',
    Starfield_animate st = Ok tt st' /\
    Forall2 Star_stepped (starfield st) (starfield st') /\
    ship st' = ship st /\ enemies st' = enemies st /\
    bullets st' = bullets st /\ explosions st' = explosions st /\
    calls st' = calls st /\
    ((-6 <= SHIP_POSITION_Y)%Q ->
     Forall (fun s => (star_y s <= SHIP_POSITION_Y + 4)%Q) (starfield st')) /\
    (-4 <= NUM_WEEKS -> (-6 <= SHIP_POSITION_Y)%Q ->
     unit_draws (random_draws (rand st)) ->
     Forall star_ok (starfield st) -> Forall star_ok (starfield st')).
Proof.
  unfold Starfield_animate, bind, gets.
  destruct (for_each_update_stepped (starfield st) st) as (l' & r & -> & Hd & Hl & Hok).
  eexists. split; [reflexivity|]. simpl. split; [exact Hl|].
  repeat split; try assumption.
  intro Hr. clear Hok. induction Hl as [|s s' l l' Hs _ IH]; constructor.
  - eapply Star_stepped_below; eassumption.
  - exact IH.
Qed.

(** What [Starfield.animate] keeps of the stars. *)
Lemma Starfield_animate_stars (st st' : GameState) :
  Starfield_animate st = Ok tt st' ->
  List.length (starfield st') = List.length (starfield st) /\
  random_draws (rand st') = random_draws (rand st) /\
  (-4 <= NUM_WEEKS -> (-6 <= SHIP_POSITION_Y)%Q ->
   unit_draws (random_draws (rand st)) ->
   Forall star_ok (starfield st) -> Forall star_ok (starfield st')).
Proof.
  unfold Starfield_animate, bind, gets.
  destruct (for_each_update_stepped (starfield st) st) as (l' & r & -> & Hd & Hl & Hok).
  intro H. injection H as <-. simpl. split; [|split; assumption].
  symmetry. eapply Forall2_length. exact Hl.
Qed.

Lemma Enemy_after_damage_stars (e : Enemy) (st : GameState) :
  starfield (Enemy_after_damage e st) = starfield st /\
  rand (Enemy_after_damage e st) = rand st.
Proof. unfold Enemy_after_damage. destruct (_ <=? _); split; reflexivity. Qed.

Lemma Bullet_after_animate_stars (b : Bullet) (st : GameState) :
  starfield (Bullet_after_animate b st) = starfield st /\
  rand (Bullet_after_animate b st) = rand st.
Proof.
  unfold Bullet_after_animate. cbv zeta.
  destruct (find _ _) as [e|].
  - simpl. match goal with |- context [Enemy_after_damage e ?s] =>
      destruct (Enemy_after_damage_stars e s) as (-> & ->) end. split; reflexivity.
  - destruct (Bullet_exits b); split; reflexivity.
Qed.

Lemma Explosion_after_animate_stars (x : Explosion) (st : GameState) :
  starfield (Explosion_after_animate x st) = starfield st /\
  rand (Explosion_after_animate x st) = rand st.
Proof.
  unfold Explosion_after_animate. cbv zeta. destruct (_ <=? _); split; reflexivity.
Qed.

Lemma pass_call_stars (m : M unit) (st st' : GameState) :
  wf st -> stars_kept st -> pass_call m st -> m st = Ok tt st' -> stars_kept st'.
Proof.
  intros Hwf (Hlen & Hok) Hcall H.
  destruct Hcall as [st|st|e st Hin|b st Hin|x st Hin].
  - apply Starfield_animate_stars in H. destruct H as (Hl & Hd & Hk).
    split; [congruence|]. intros Hw Hr Hu. rewrite Hd in Hu. auto.
  - injection H as <-. split; assumption.
  - injection H as <-. split; assumption.
  - apply Bullet_animate_Ok in H; [|exact Hwf|exact Hin]. destruct H as (_ & ->).
    destruct (Bullet_after_animate_stars b st) as (Es & Er).
    unfold stars_kept. rewrite Es, Er. split; assumption.
  - rewrite Explosion_animate_returns in H; [|apply Hwf|exact Hin].
    injection H as <-. destruct (Explosion_after_animate_stars x st) as (Es & Er).
    unfold stars_kept. rewrite Es, Er. split; assumption.
Qed.

(** X11: in every state of a run the star field has exactly 100 stars,
    and, when the draws are in [0, 1) and the band is not empty, every one
    of them is inside the band: no operation adds or drops a star or moves
    one out. *)
Theorem starfield_keeps_100_stars_in_band (st : GameState) :
  reachable st ->
  List.length (starfield st) = 100%nat /\
  (-4 <= NUM_WEEKS -> (-6 <= SHIP_POSITION_Y)%Q ->
   unit_draws (random_draws (rand st)) -> Forall star_ok (starfield st)).
Proof.
  induction 1 as [seed data st H|op st st' Hr IH H|m st st' Hr IH Hc H].
  - destruct (GameState_new_stars seed data) as (st0 & E & Hl & Hd & Hok).
    rewrite E in H. injection H as <-. split; [exact Hl|].
    intros Hw Hrow Hu. rewrite Hd in Hu. auto.
  - destruct op as [x| |]; simpl in H.
    + injection H as <-. exact IH.
    + rewrite GameState_shoot_eq in H. injection H as <-. exact IH.
    + apply (GameState_animate_keeps (fun s => wf s /\ stars_kept s))
        with (st := st); [|split; [apply reachable_wf; exact Hr|exact IH]|exact H].
      intros m s s' (Hs & Hk) Hc Hm. split.
      * eapply pass_call_wf; eassumption.
      * eapply pass_call_stars; eassumption.
  - eapply pass_call_stars; [apply reachable_wf; exact Hr|exact IH|exact Hc|exact H].
Qed.

End StarSteps.

(** ** The web app *)

Lemma STRATEGY_MAP_keys (strategy : string) :
  dict_contains STRATEGY_MAP strategy = true <->
  strategy = "column"%string \/ strategy = "row"%string \/ strategy = "random"%string.
Proof.
  unfold dict_contains, STRATEGY_MAP. simpl.
  destruct (String.eqb_spec strategy "column") as [->|H1]; [tauto|].
  destruct (String.eqb_spec strategy "row") as [->|H2]; [tauto|].
  destruct (String.eqb_spec strategy "random") as [->|H3]; [tauto|].
  split; [discriminate|]. intros [H|[H|H]]; contradiction.
Qed.

Section WebAppFacts.

Context {collaborators : Collaborators}.

(** X12: the endpoint turns away a request before anything is fetched or
    drawn: with [GH_TOKEN] unset or empty it raises 500, whatever the
    strategy (a wrong strategy does not get its 400 then); with a token it
    raises 400 for every strategy but "column", "row" and "random", and
    the detail names the three. So a response is only ever returned to a
    request made with a token and one of the three strategies. *)
Theorem generate_validates_first (username strategy format : string) :
  generate None username strategy format
  = HTTPException 500 "GitHub token not configured" /\
  generate (Some ""%string) username strategy format
  = HTTPException 500 "GitHub token not configured" /\
  (forall token, token <> ""%string ->
     strategy <> "column"%string /\ strategy <> "row"%string /\
     strategy <> "random"%string ->
     generate (Some token) username strategy format
     = HTTPException 400 "Invalid strategy. Choose from: column, row, random") /\
  (forall GH_TOKEN r,
     generate GH_TOKEN username strategy format = Replied r ->
     (exists token, GH_TOKEN = Some token /\ token <> ""%string) /\
     (strategy = "column"%string \/ strategy = "row"%string \/
      strategy = "random"%string)).
Proof.
  split; [reflexivity|]. split; [reflexivity|]. split.
  - intros token Htoken (H1 & H2 & H3). unfold generate.
    destruct (String.eqb_spec token "") as [->|_]; [contradiction|].
    pose proof (STRATEGY_MAP_keys strategy) as Hk.
    destruct (dict_contains STRATEGY_MAP strategy); simpl; [|reflexivity].
    destruct Hk as (Hk & _). destruct (Hk eq_refl) as [H|[H|H]]; contradiction.
  - intros GH_TOKEN r H. unfold generate in H.
    destruct GH_TOKEN as [token|]; [|discriminate].
    destruct (String.eqb_spec token "") as [->|Htoken]; [discriminate|].
    pose proof (STRATEGY_MAP_keys strategy) as Hk.
    destruct (dict_contains STRATEGY_MAP strategy); simpl in H; [|discriminate].
    split; [exists token; split; [reflexivity|exact Htoken]|].
    apply Hk. reflexivity.
Qed.

(** X13: [generate_animation] falls back to [RandomStrategy] without a
    word: under any name that is not a key of [STRATEGY_MAP] it does
    exactly what it does under "random"; under each of the three keys it
    builds the animator with that key's class, at 25 frames per second
    with the watermark, and asks for the provider of "output.<format>". *)
Theorem generate_animation_falls_back_to_random (username strategy token format : string) :
  (dict_contains STRATEGY_MAP strategy = false ->
   generate_animation username strategy token format
   = generate_animation username "random" token format) /\
  (forall data animator provider encoded,
     get_contribution_graph token username = Returned data ->
     Animator_init data (dict_get STRATEGY_MAP strategy RandomStrategy) 25 true
     = Returned animator ->
     resolve_output_provider ("output." ++ format) 25 true = Returned provider ->
     OutputProvider_encode provider animator = Returned encoded ->
     generate_animation username strategy token format
     = Returned (encoded, ("image/" ++ format)%string)) /\
  dict_get STRATEGY_MAP "column" RandomStrategy = ColumnStrategy /\
  dict_get STRATEGY_MAP "row" RandomStrategy = RowStrategy /\
  dict_get STRATEGY_MAP "random" RandomStrategy = RandomStrategy.
Proof.
  split; [|split; [|repeat split]].
  - intro Hmiss. unfold generate_animation.
    assert (Hget : dict_get STRATEGY_MAP strategy RandomStrategy = RandomStrategy).
    { unfold dict_get. unfold dict_contains in Hmiss.
      destruct (dict_lookup STRATEGY_MAP strategy); [discriminate|reflexivity]. }
    rewrite Hget. reflexivity.
  - intros data animator provider encoded Hd Ha Hp He. unfold generate_animation.
    rewrite Hd. cbv zeta. rewrite Ha, Hp, He. reflexivity.
Qed.


End WebAppFacts.

(** ** Drawing an enemy *)

(** X15: [Enemy.draw] paints one square, of side [cell_size], at the pixel
    position of the enemy's cell, in the colour the table has for the
    enemy's health, or in the colour of health 1 when the table has none
    for it. It raises [KeyError] exactly when the table has no colour for
    health 1, even for an enemy whose own health has a colour, because the
    fallback is looked up before it is needed. *)
Theorem enemy_draw_falls_back_to_colour_1 (self : Enemy) (context : RenderContext) :
  (forall key, Enemy_draw self context = RaisedKeyError key <->
     key = 1 /\ colors_lookup (enemy_colors context) 1 = None) /\
  (forall default,
     colors_lookup (enemy_colors context) 1 = Some default ->
     exists color,
       Enemy_draw self context
       = Painted
           [Rectangle
              (fst (get_cell_position context (inject_Z (enemy_x self))
                      (inject_Z (enemy_y self))))
              (snd (get_cell_position context (inject_Z (enemy_x self))
                      (inject_Z (enemy_y self))))
              (fst (get_cell_position context (inject_Z (enemy_x self))
                      (inject_Z (enemy_y self))) + inject_Z (cell_size context))
              (snd (get_cell_position context (inject_Z (enemy_x self))
                      (inject_Z (enemy_y self))) + inject_Z (cell_size context))
              color] /\
       (forall c, colors_lookup (enemy_colors context) (enemy_health self) = Some c ->
          color = c) /\
       (colors_lookup (enemy_colors context) (enemy_health self) = None ->
        color = default)).
Proof.
  unfold Enemy_draw.
  destruct (get_cell_position context (inject_Z (enemy_x self))
              (inject_Z (enemy_y self))) as (x, y). simpl.
  destruct (colors_lookup (enemy_colors context) 1) as [d|]; split.
  - intro key. split; [discriminate|]. intros (_ & H). discriminate.
  - intros default H. injection H as <-.
    destruct (colors_lookup (enemy_colors context) (enemy_health self)) as [c|].
    + exists c. split; [reflexivity|]. split; [intros c' H; congruence|discriminate].
    + exists d. split; [reflexivity|]. split; [discriminate|reflexivity].
  - intro key. split.
    + intro H. injection H as <-. split; reflexivity.
    + intros (-> & _). reflexivity.
  - intros default H. discriminate.
Qed.

(** ** More concrete runs *)

(** The explosion theorem 64 passes after the shot. *)
Lemma explosion_lives_its_frames_witness :
  @reachable sample_constants sample_explosions_state /\
  forall x, In x (explosions sample_explosions_state) ->
    0 <= explosion_frame x < explosion_max_frames x.
Proof.
  assert (H : @reachable sample_constants sample_explosions_state)
    by (apply (@run_all_reachable sample_constants (Shoot :: repeat Animate 64)
                 (sample_new sample_levels));
        [apply sample_new_reachable|vm_compute; reflexivity]).
  split; [exact H|]. intros x Hx.
  exact (proj1 (@explosion_lives_its_frames sample_constants
                  sample_explosions_state H x Hx)).
Defined.

(** The walk theorem 64 passes after the shot, when no bullet is left. *)
Lemma pass_walks_explosions_witness :
  @reachable sample_constants sample_explosions_state /\
  Forall (fun b => @Bullet_hits sample_constants b sample_explosions_state = false /\
                   @Bullet_exits sample_constants b = false)
    (bullets sample_explosions_state) /\
  exists st',
    @GameState_animate sample_constants sample_explosions_state = Ok tt st' /\
    explosions st' = explosions_after (explosions sample_explosions_state).
Proof.
  assert (H : @reachable sample_constants sample_explosions_state)
    by (apply (@run_all_reachable sample_constants (Shoot :: repeat Animate 64)
                 (sample_new sample_levels));
        [apply sample_new_reachable|vm_compute; reflexivity]).
  assert (Hb : Forall
            (fun b => @Bullet_hits sample_constants b sample_explosions_state = false /\
                      @Bullet_exits sample_constants b = false)
            (bullets sample_explosions_state)).
  { assert (E : bullets sample_explosions_state = []) by (vm_compute; reflexivity).
    rewrite E. constructor. }
  split; [exact H|]. split; [exact Hb|].
  destruct (@pass_walks_explosions sample_constants sample_explosions_state H Hb)
    as (st' & E & Hx & _).
  exists st'. split; assumption.
Defined.

Lemma sample_hit_state_reachable : @reachable sample_constants sample_hit_state.
Proof.
  apply (@run_all_reachable sample_constants (Shoot :: repeat Animate 59)
           (sample_new sample_levels)); [apply sample_new_reachable|].
  vm_compute. reflexivity.
Qed.

(** The hit theorem one step before the bullet meets the enemy. *)
Lemma hit_damages_enemy_witness :
  @reachable sample_constants sample_hit_state /\
  In sample_hit_bullet (bullets sample_hit_state) /\
  find (@collides (@Bullet_moved sample_constants sample_hit_bullet))
    (enemies sample_hit_state) = Some sample_hit_enemy /\
  @Bullet_exits sample_constants sample_hit_bullet = false /\
  exists st',
    @Bullet_animate sample_constants sample_hit_bullet sample_hit_state = Ok tt st'.
Proof.
  assert (H1 : In sample_hit_bullet (bullets sample_hit_state))
    by (vm_compute; left; reflexivity).
  assert (H2 : find (@collides (@Bullet_moved sample_constants sample_hit_bullet))
                 (enemies sample_hit_state) = Some sample_hit_enemy)
    by (vm_compute; reflexivity).
  assert (H3 : @Bullet_exits sample_constants sample_hit_bullet = false)
    by (vm_compute; reflexivity).
  split; [exact sample_hit_state_reachable|]. split; [exact H1|].
  split; [exact H2|]. split; [exact H3|].
  destruct (@hit_damages_enemy_and_spawns_explosions sample_constants sample_hit_state
              sample_hit_bullet sample_hit_enemy sample_hit_state_reachable H1 H2 H3)
    as (st' & E & _).
  exists st'. exact E.
Defined.

Lemma fast_shot_state_reachable : @reachable fast_constants fast_shot_state.
Proof.
  apply (@run_all_reachable fast_constants [Shoot]
           (final_state (@GameState_new fast_constants sample_seed
                           (sample_grid sample_levels)))).
  - destruct (@GameState_new_eq fast_constants sample_seed (sample_grid sample_levels))
      as (sf & r & E).
    apply (@reachable_new fast_constants sample_seed (sample_grid sample_levels)).
    rewrite E. reflexivity.
  - vm_compute. reflexivity.
Qed.

(** The double removal with the fast bullet: the first pass after the shot
    takes the bullet from row 9 to row -21, past the enemy of row 0 and
    past the exit threshold. *)
Lemma hit_past_exit_raises_witness :
  @reachable fast_constants fast_shot_state /\
  In fast_shot_bullet (bullets fast_shot_state) /\
  find (@collides (@Bullet_moved fast_constants fast_shot_bullet))
    (enemies fast_shot_state) = Some sample_hit_enemy /\
  @Bullet_exits fast_constants fast_shot_bullet = true /\
  exists st',
    @Bullet_animate fast_constants fast_shot_bullet fast_shot_state
    = Raise ValueError st'.
Proof.
  assert (H1 : In fast_shot_bullet (bullets fast_shot_state))
    by (vm_compute; left; reflexivity).
  assert (H2 : find (@collides (@Bullet_moved fast_constants fast_shot_bullet))
                 (enemies fast_shot_state) = Some sample_hit_enemy)
    by (vm_compute; reflexivity).
  assert (H3 : @Bullet_exits fast_constants fast_shot_bullet = true)
    by (vm_compute; reflexivity).
  split; [exact fast_shot_state_reachable|]. split; [exact H1|].
  split; [exact H2|]. split; [exact H3|].
  destruct (@hit_past_exit_raises fast_constants fast_shot_state
              fast_shot_bullet sample_hit_enemy fast_shot_state_reachable H1 H2 H3)
    as (st' & E & _).
  exists st'. exact E.
Defined.

(** The first-match theorem under a column with two enemies: the bullet,
    one step below row 2, meets the enemy of row 2 although the enemy of
    row 0 comes first in the collection. *)
Lemma first_match_is_lowest_enemy_witness :
  (@BULLET_SPEED sample_constants <= 1)%Q /\
  (forall e, In e (enemies sample_column_state) ->
     enemy_x e = bullet_x sample_column_bullet ->
     (inject_Z (enemy_y e) < bullet_y sample_column_bullet)%Q) /\
  forall e,
    find (@collides (@Bullet_moved sample_constants sample_column_bullet))
      (enemies sample_column_state) = Some e ->
    forall e', In e' (enemies sample_column_state) ->
      enemy_x e' = bullet_x sample_column_bullet -> enemy_y e' <= enemy_y e.
Proof.
  assert (H1 : (@BULLET_SPEED sample_constants <= 1)%Q) by (vm_compute; discriminate).
  assert (H2 : forall e, In e (enemies sample_column_state) ->
            enemy_x e = bullet_x sample_column_bullet ->
            (inject_Z (enemy_y e) < bullet_y sample_column_bullet)%Q).
  { assert (E : enemies sample_column_state
                = [{| enemy_id := 0; enemy_x := 25; enemy_y := 0; enemy_health := 1 |};
                   {| enemy_id := 1; enemy_x := 25; enemy_y := 2; enemy_health := 2 |}])
      by (vm_compute; reflexivity).
    rewrite E. intros e [<-|[<-|[]]] _; vm_compute; reflexivity. }
  split; [exact H1|]. split; [exact H2|].
  exact (proj1 (@first_match_is_lowest_enemy sample_constants sample_column_state
                  sample_column_bullet H1 H2)).
Defined.


(** The star theorem at the state of a fresh game. *)
Lemma starfield_keeps_100_stars_witness :
  @reachable sample_constants (sample_new [[2]]) /\
  List.length (starfield (sample_new [[2]])) = 100%nat.
Proof.
  split; [apply sample_new_reachable|].
  exact (proj1 (@starfield_keeps_100_stars_in_band sample_constants
                  (sample_new [[2]]) (sample_new_reachable [[2]]))).
Defined.


(** The validation theorem on a request with a token and a strategy the
    map does not have. *)
Lemma generate_validates_first_witness :
  @generate sample_collaborators (Some "token"%string) "octocat" "diagonal" "gif"
  = HTTPException 400 "Invalid strategy. Choose from: column, row, random".
Proof.
  apply (proj1 (proj2 (proj2
           (@generate_validates_first sample_collaborators "octocat" "diagonal" "gif")))
           "token"%string).
  - discriminate.
  - repeat split; discriminate.
Defined.
